(** * Recipe extractor: the extraction pipeline and the recommendation matcher

    A shallow embedding of [app.py]: the inference extractor
    ([analyze_with_gemini]), the item processor ([process_single_video]),
    the batch driver ([start_processing]), the status map ([update_status],
    [get_status]) and the recommendation matcher ([recommend_recipe]),
    followed by the properties the specification states about them.

    Conventions.
    - A Python [str] is the list of its Unicode code points. The texts
      that reach the database from the services (ids, titles,
      descriptions, answers of the model) are taken to be texts sqlite3
      can bind: without lone surrogates and of fewer than 10^9 bytes in
      UTF-8. The tokens of a query come from the request and are bound
      by nothing but UTF-8.
    - Python sets and dicts are stdpp's [gset] and [gmap]; the order in
      which Python iterates over a set is a [set_iteration], any
      enumeration of the elements.
    - Python floats are Rocq's primitive binary64 floats.
    - The store is the SQLite table [recipes] (the default backend), as the
      list of its rows in rowid order, with SQLite's default limits.
    - External services (YouTube, Gemini, the JSON parser, the clock) are
      the fields of a [World]; code that raises returns a [result]. *)

From Stdlib Require Import ZArith NArith Ascii String Floats Uint63.
From stdpp Require Import base decidable option list sorting gmap sets strings.

Set Warnings "-register-all".
#[local] Open Scope N_scope.

(** ** Python strings *)

Abbreviation char := N.
Abbreviation str := (list N).

Module PyStr.

(** [Py_UNICODE_ISSPACE]: the characters [str.strip()] strips and the
    regular expression class [\s] matches on a [str]. *)
Definition isspace (c : char) : bool :=
  ((9 <=? c) && (c <=? 13)) || ((28 <=? c) && (c <=? 32))
  || (c =? 133) || (c =? 160) || (c =? 5760)
  || ((8192 <=? c) && (c <=? 8202))
  || (c =? 8232) || (c =? 8233) || (c =? 8239) || (c =? 8287)
  || (c =? 12288).

Definition comma : char := 44.
Definition quote : char := 34.
Definition newline : char := 10.

Fixpoint drop_while (p : char → bool) (s : str) : str :=
  match s with
  | [] => []
  | c :: s' => if p c then drop_while p s' else s
  end.

Definition lstrip_by (p : char → bool) (s : str) : str := drop_while p s.
Definition rstrip_by (p : char → bool) (s : str) : str :=
  reverse (drop_while p (reverse s)).

(** [s.strip()] *)
Definition strip (s : str) : str := rstrip_by isspace (lstrip_by isspace s).

(** [s.strip(',')] *)
Definition strip_commas (s : str) : str :=
  rstrip_by (N.eqb comma) (lstrip_by (N.eqb comma) s).

(** [s.split(sep)] for a one-character separator: never empty, [""]
    splits into [[""]]. *)
Fixpoint split (sep : char) (s : str) : list str :=
  match s with
  | [] => [[]]
  | c :: s' =>
    if c =? sep then [] :: split sep s'
    else match split sep s' with
         | [] => [[c]]
         | w :: ws => (c :: w) :: ws
         end
  end.

(** [sep.join(l)] *)
Fixpoint join (sep : str) (l : list str) : str :=
  match l with
  | [] => []
  | [x] => x
  | x :: l' => x ++ sep ++ join sep l'
  end.

(** Literals: the code points of a UTF-8 encoded source literal. *)
Fixpoint utf8_decode (need : nat) (acc : N) (bs : list N) : str :=
  match bs with
  | [] => []
  | b :: bs' =>
    match need with
    | O =>
      if b <? 128 then b :: utf8_decode 0 0 bs'
      else if b <? 224 then utf8_decode 1 (b - 192) bs'
      else if b <? 240 then utf8_decode 2 (b - 224) bs'
      else utf8_decode 3 (b - 240) bs'
    | S O => (acc * 64 + (b - 128)) :: utf8_decode 0 0 bs'
    | S k => utf8_decode k (acc * 64 + (b - 128)) bs'
    end
  end.

Definition lit (s : string) : str :=
  utf8_decode 0 0 (N_of_ascii <$> list_ascii_of_string s).

(** [t in s]: [t] occurs in [s] as a contiguous run of characters. *)
Definition substring (t s : str) : Prop :=
  ∃ pre post : str, s = pre ++ t ++ post.

End PyStr.
Import PyStr.

(** ** Exceptions *)

Inductive exn :=
| JSONDecodeError     (* json.loads on malformed text *)
| AttributeError      (* [.get] on a value that is not a dict *)
| TypeError           (* [str.join] or [re.sub] on a value that is not a str *)
| ServiceError        (* raised by an external service call *)
| OverflowError       (* sqlite3: a parameter too large to be bound *)
| DataError           (* sqlite3: string or blob too big *)
| OperationalError    (* sqlite3: a statement SQLite rejects or fails to run *)
| IntegrityError      (* sqlite3: UNIQUE constraint violated *)
| ProgrammingError.   (* sqlite3: parameter of an unsupported type *)

Inductive result (A : Type) :=
| Ok (a : A)
| Raise (e : exn).
Arguments Ok {A} a.
Arguments Raise {A} e.

#[export] Instance exn_eq_dec : EqDecision exn.
Proof. solve_decision. Defined.

#[export] Instance result_ret : MRet result := λ A a, Ok a.
#[export] Instance result_bind : MBind result := λ A B f m,
  match m with Ok a => f a | Raise e => Raise e end.
#[export] Instance result_fmap : FMap result := λ A B f m,
  match m with Ok a => Ok (f a) | Raise e => Raise e end.

(** ** JSON values, as [json.loads] returns them *)

Inductive json :=
| JNull
| JBool (b : bool)
| JInt (n : Z)
| JFloat (x : float)
| JStr (s : str)
| JList (l : list json)
| JDict (d : gmap str json).

(** [data.get(key, dflt)]: only a dict has [.get]. *)
Definition dict_get (data : json) (key : str) (dflt : json) : result json :=
  match data with
  | JDict d => Ok (default dflt (d !! key))
  | _ => Raise AttributeError
  end.

(** The items of a list as strings, as [str.join] requires them. *)
Fixpoint str_items (l : list json) : result (list str) :=
  match l with
  | [] => Ok []
  | JStr s :: l' => cons s <$> str_items l'
  | _ :: _ => Raise TypeError
  end.

(** ** Ingredient normalization *)

(** [re.sub(r'\s+', '', s)] *)
Definition remove_whitespace (s : str) : str :=
  filter (λ c, isspace c = false) s.

(** [re.sub(r',+', ',', s)]: [in_run] tells that the previous character
    belonged to the run of commas being replaced. *)
Fixpoint collapse_commas_from (in_run : bool) (s : str) : str :=
  match s with
  | [] => []
  | c :: s' =>
    if c =? comma
    then (if in_run then collapse_commas_from true s'
          else comma :: collapse_commas_from true s')
    else c :: collapse_commas_from false s'
  end.

Definition collapse_commas (s : str) : str := collapse_commas_from false s.

Definition normalize_ingredients (ingredients : str) : str :=
  let ingredients := remove_whitespace ingredients in
  let ingredients := collapse_commas ingredients in
  strip_commas ingredients.

(** ** Code fences around the model's answer *)

Fixpoint strip_prefix (p s : str) : option str :=
  match p, s with
  | [], _ => Some s
  | a :: p', b :: s' => if a =? b then strip_prefix p' s' else None
  | _ :: _, [] => None
  end.

Definition strip_suffix (p s : str) : option str :=
  reverse <$> strip_prefix (reverse p) (reverse s).

Definition fence : str := lit "```".

(** [re.sub(r'^```json?\s*', '', s)] *)
Definition strip_fence_open (s : str) : str :=
  match strip_prefix (fence ++ lit "jso") s with
  | Some r =>
    lstrip_by isspace (match r with 110 :: r' => r' | _ => r end)
  | None => s
  end.

(** [re.sub(r'\s*```$', '', s)]; [$] also matches before a final newline. *)
Definition strip_fence_close (s : str) : str :=
  match strip_suffix fence s with
  | Some r => rstrip_by isspace r
  | None =>
    match strip_suffix (fence ++ [newline]) s with
    | Some r => rstrip_by isspace r ++ [newline]
    | None => s
    end
  end.

(** ** The outside world *)

Record video_info := {
  vi_title : str;
  vi_description : str;
  vi_url : str;
}.

(** What the program asks of the services it calls. A playlist, a caption
    track or a comment thread is whatever the service returns; the three
    wrappers [get_playlist_items], [get_video_transcript] and
    [get_video_comments] catch every exception themselves, so each is the
    value it returns. *)
Record World := {
  (** [youtube.videos().list(part="snippet", id=video_id).execute()]: the
      (title, description) of each item of the response. *)
  youtube_videos : str → result (list (str * str));
  (** [get_playlist_items]: the video ids, [[]] on any failure. *)
  get_playlist_items : str → list str;
  (** [get_video_transcript]: the caption text, [None] on any failure. *)
  get_video_transcript : str → option str;
  (** [get_video_comments]: the joined comments, [None] on any failure. *)
  get_video_comments : str → option str;
  (** [model.generate_content(prompt)] and its [.text]; [None] when
      either raises. *)
  generate_content : str → option str;
  (** [json.loads]; [None] when it raises [JSONDecodeError]. *)
  json_loads : str → option json;
  (** [time.time()] at the n-th reading of the clock. *)
  time_time : nat → float;
  (** [str(e)] *)
  exn_text : exn → str;
  (** The text SQLite writes for a REAL that goes into a TEXT column
      (its [printf] format [%!.15g]). *)
  real_text : float → str;
}.

(** ** The inference extractor *)

(** [data_dict.get(key)] is truthy: the key is present with a non-empty
    text. *)
Definition slot_filled (data_dict : gmap str str) (key : str) : bool :=
  match data_dict !! key with
  | Some (_ :: _) => true
  | _ => false
  end.

(** [data_dict[key]] once [slot_filled] holds. *)
Definition slot_text (data_dict : gmap str str) (key : str) : str :=
  default [] (data_dict !! key).

Definition k_transcript : str := lit "transcript".
Definition k_description : str := lit "description".
Definition k_comments : str := lit "comments".

Definition available_data (data_dict : gmap str str) : list str :=
  (if slot_filled data_dict k_transcript
   then [lit "자막: " ++ take 2000 (slot_text data_dict k_transcript)]
   else [])
  ++ (if slot_filled data_dict k_description
      then [lit "설명: " ++ take 1000 (slot_text data_dict k_description)]
      else [])
  ++ (if slot_filled data_dict k_comments
      then [lit "댓글: " ++ take 800 (slot_text data_dict k_comments)]
      else []).

Definition src_transcript : str := lit "자막".
Definition src_description : str := lit "설명".
Definition src_comments : str := lit "댓글".

Definition sources_of (data_dict : gmap str str) : list str :=
  (if slot_filled data_dict k_transcript then [src_transcript] else [])
  ++ (if slot_filled data_dict k_description then [src_description] else [])
  ++ (if slot_filled data_dict k_comments then [src_comments] else []).

Definition prompt (title combined_text : str) : str :=
  lit "다음은 " ++ [quote] ++ title ++ [quote]
  ++ lit "라는 요리 영상의 데이터입니다.
이 데이터를 종합 분석하여 요리 이름과 재료를 추출하세요.

" ++ combined_text ++ lit "

규칙:
1. 요리 이름은 간단명료하게
2. 재료는 쉼표로만 구분, 공백 없이
3. 기본 조미료, 양념 포함
4. 댓글에서 언급된 재료도 고려
5. JSON 형식으로 응답

응답 형식:
{" ++ [quote] ++ lit "dish_name" ++ [quote] ++ lit ": "
  ++ [quote] ++ lit "요리이름" ++ [quote] ++ lit ", "
  ++ [quote] ++ lit "ingredients" ++ [quote] ++ lit ": "
  ++ [quote] ++ lit "재료1,재료2,재료3" ++ [quote] ++ lit "}
".

(** The result triple [(dish_name, ingredients, sources)]. [dish_name] is
    whatever JSON value the answer holds under that key. *)
Definition analysis : Type := json * str * list str.

(** The fallback every failure path returns: [title, "", []]. *)
Definition fallback (title : str) : analysis := (JStr title, [], []).

(** From [dish_name = data.get('dish_name', title)] to the [return]. *)
Definition read_record (data_dict : gmap str str) (title : str) (data : json)
  : result analysis :=
  dish_name ← dict_get data (lit "dish_name") (JStr title);
  ingredients ← dict_get data (lit "ingredients") (JStr []);
  ingredients ← match ingredients with
                | JList l => JStr ∘ join [comma] <$> str_items l
                | _ => Ok ingredients
                end;
  match ingredients with
  | JStr s => Ok (dish_name, normalize_ingredients s, sources_of data_dict)
  | _ => Raise TypeError
  end.

(** The body of the [try] block. *)
Definition analyze_body (w : World) (data_dict : gmap str str) (title : str)
  : result analysis :=
  let available := available_data data_dict in
  if decide (available = []) then Ok (fallback title)
  else
    let combined_text := join (lit "

") available in
    match generate_content w (prompt title combined_text) with
    | None => Raise ServiceError
    | Some text =>
      let answer := strip_fence_close (strip_fence_open (strip text)) in
      match json_loads w answer with
      | None => Raise JSONDecodeError
      | Some (JList []) => Ok (fallback title)
      | Some (JList (first :: _)) => read_record data_dict title first
      | Some data => read_record data_dict title data
      end
    end.

Definition analyze_with_gemini (w : World) (data_dict : gmap str str)
    (title : str) : analysis :=
  match analyze_body w data_dict title with
  | Ok r => r
  | Raise JSONDecodeError => fallback title
  | Raise _ => fallback title
  end.

(** ** Floats *)

(** [float(n)] for a count [n]. *)
Definition float_of_nat (n : nat) : float :=
  PrimFloat.of_uint63 (Uint63.of_Z (Z.of_nat n)).

(** [int(x)]: truncation towards zero. *)
Definition int_of_float (x : float) : Z :=
  match Prim2SF x with
  | S754_finite s m e =>
    let v := if (0 <=? e)%Z then (Z.pos m * 2 ^ e)%Z
             else (Z.pos m / 2 ^ (- e))%Z in
    if s then (- v)%Z else v
  | _ => 0%Z
  end.

(** Rounding [num / den] to the nearest integer, ties to even. *)
Definition round_half_even (num den : Z) : Z :=
  let q := (num / den)%Z in
  let r := (num mod den)%Z in
  if (2 * r <? den)%Z then q
  else if (den <? 2 * r)%Z then (q + 1)%Z
  else if Z.even q then q else (q + 1)%Z.

(** [f"{x:.1f}"]: the decimal with one fractional digit nearest to the
    exact value of [x] (ties to even), given as its number of tenths:
    ["66.7"] is [667]. *)
Definition format_1f (x : float) : Z :=
  match Prim2SF x with
  | S754_finite s m e =>
    let v := if (0 <=? e)%Z then (Z.pos m * 2 ^ e * 10)%Z
             else round_half_even (Z.pos m * 10) (2 ^ (- e)) in
    if s then (- v)%Z else v
  | _ => 0%Z
  end.

(** ** The recipe store *)

Module Recipe.
(** A row of [recipes]; [id] is the position in the table and
    [created_at] is left out. *)
Record t := {
  video_id : str;
  title : str;
  description : str;
  ingredients : str;
  dish_name : option str;
  url : str;
  data_sources : str;
}.
End Recipe.

(** [SELECT COUNT( * ) FROM recipes WHERE video_id = ?] *)
Definition count_video (video_id : str) (rows : list Recipe.t) : nat :=
  length (filter (λ r, Recipe.video_id r = video_id) rows).

Definition check_if_video_exists (video_id : str) (rows : list Recipe.t)
  : bool :=
  bool_decide (0 < count_video video_id rows)%nat.

(** The decimal digits of an integer, with its sign. *)
Fixpoint uint_digits (d : Decimal.uint) : str :=
  match d with
  | Decimal.Nil => []
  | Decimal.D0 d' => 48 :: uint_digits d'
  | Decimal.D1 d' => 49 :: uint_digits d'
  | Decimal.D2 d' => 50 :: uint_digits d'
  | Decimal.D3 d' => 51 :: uint_digits d'
  | Decimal.D4 d' => 52 :: uint_digits d'
  | Decimal.D5 d' => 53 :: uint_digits d'
  | Decimal.D6 d' => 54 :: uint_digits d'
  | Decimal.D7 d' => 55 :: uint_digits d'
  | Decimal.D8 d' => 56 :: uint_digits d'
  | Decimal.D9 d' => 57 :: uint_digits d'
  end.

Definition integer_text (n : Z) : str :=
  match Z.to_int n with
  | Decimal.Pos d => uint_digits d
  | Decimal.Neg d => 45 :: uint_digits d
  end.

(** What a column of type TEXT holds after a Python value was bound to
    its [?]: a [str] as it is, [None] and a NaN as NULL, a number as its
    text form (a [bool] is an [int] for sqlite3). Lists and dicts are not
    supported, integers must fit 64 bits. *)
Definition bind_parameter (w : World) (v : json) : result (option str) :=
  match v with
  | JNull => Ok None
  | JBool b => Ok (Some (integer_text (if b then 1 else 0)))
  | JInt n =>
    if ((- 2 ^ 63 <=? n) && (n <? 2 ^ 63))%Z then Ok (Some (integer_text n))
    else Raise OverflowError
  | JFloat x => Ok (if PrimFloat.is_nan x then None else Some (real_text w x))
  | JStr s => Ok (Some s)
  | JList _ | JDict _ => Raise ProgrammingError
  end.

(** [INSERT INTO recipes (...) VALUES (?, ?, ?, ?, ?, ?, ?)] followed by
    [commit]. The six other parameters are texts; [dish_name] is whatever
    the extractor returned. [video_id] is [UNIQUE]. *)
Definition insert_recipe (w : World)
    (video_id title description ingredients : str) (dish_name : json)
    (url data_sources : str) (rows : list Recipe.t)
  : result (list Recipe.t) :=
  dish_name ← bind_parameter w dish_name;
  if check_if_video_exists video_id rows
  then Raise IntegrityError
  else Ok (rows ++ [{| Recipe.video_id := video_id;
                       Recipe.title := title;
                       Recipe.description := description;
                       Recipe.ingredients := ingredients;
                       Recipe.dish_name := dish_name;
                       Recipe.url := url;
                       Recipe.data_sources := data_sources |}]).

(** ** The status map *)

Module RunStatus.
(** A value of [processing_status]; the keys [timestamp], [completed]
    and [success_count] are not always present. *)
Record t := {
  current : nat;
  total : nat;
  percentage : Z;
  status : str;
  video_title : str;
  timestamp : option float;
  completed : option bool;
  success_count : option nat;
}.
End RunStatus.

(** ** Program state *)

Record State := {
  recipes : list Recipe.t;
  processing_status : gmap str RunStatus.t;
  clock : nat;
}.

(** Stateful code that may raise. *)
Definition M (A : Type) : Type := State → result A * State.

#[export] Instance M_ret : MRet M := λ A a st, (Ok a, st).
#[export] Instance M_bind : MBind M := λ A B k m st,
  match m st with
  | (Ok a, st') => k a st'
  | (Raise e, st') => (Raise e, st')
  end.

(** [try: m except Exception as e: handler(e)] *)
Definition try_except {A} (m : M A) (handler : exn → M A) : M A := λ st,
  match m st with
  | (Ok a, st') => (Ok a, st')
  | (Raise e, st') => handler e st'
  end.

(** [int((current / total) * 100) if total > 0 else 0] *)
Definition percentage_of (current total : nat) : Z :=
  if (0 <? total)%nat
  then int_of_float
         (PrimFloat.mul
            (PrimFloat.div (float_of_nat current) (float_of_nat total))
            (float_of_nat 100))
  else 0%Z.

Definition update_status (w : World) (session_id : str) (current total : nat)
    (status_text video_title : str) : M unit := λ st,
  (Ok (),
   {| recipes := recipes st;
      processing_status :=
        <[session_id :=
            {| RunStatus.current := current;
               RunStatus.total := total;
               RunStatus.percentage := percentage_of current total;
               RunStatus.status := status_text;
               RunStatus.video_title := video_title;
               RunStatus.timestamp := Some (time_time w (clock st));
               RunStatus.completed := None;
               RunStatus.success_count := None |}]>
          (processing_status st);
      clock := S (clock st) |}).

Definition default_status : RunStatus.t :=
  {| RunStatus.current := 0;
     RunStatus.total := 0;
     RunStatus.percentage := 0;
     RunStatus.status := lit "준비 중...";
     RunStatus.video_title := lit "";
     RunStatus.timestamp := None;
     RunStatus.completed := Some false;
     RunStatus.success_count := None |}.

(** [processing_status.get(session_id, {...})] *)
Definition get_status (st : State) (session_id : str) : RunStatus.t :=
  default default_status (processing_status st !! session_id).

(** ** The item processor *)

Definition get_video_info (w : World) (video_id : str) : option video_info :=
  match youtube_videos w video_id with
  | Raise _ => None
  | Ok [] => None
  | Ok ((title, description) :: _) =>
    Some {| vi_title := title;
            vi_description := description;
            vi_url := lit "https://www.youtube.com/watch?v=" ++ video_id |}
  end.

Module Outcome.
(** The dict [process_single_video] returns; [status] and [video_id]
    are always present. *)
Record t := {
  status : str;
  video_id : str;
  title : option str;
  dish_name : option json;
  sources : option (list str);
  message : option str;
}.
End Outcome.

Definition skipped (video_id : str) : Outcome.t :=
  {| Outcome.status := lit "skipped"; Outcome.video_id := video_id;
     Outcome.title := None; Outcome.dish_name := None;
     Outcome.sources := None; Outcome.message := None |}.

Definition error (video_id : str) (message : option str) : Outcome.t :=
  {| Outcome.status := lit "error"; Outcome.video_id := video_id;
     Outcome.title := None; Outcome.dish_name := None;
     Outcome.sources := None; Outcome.message := message |}.

Definition success (video_id title : str) (dish_name : json)
    (sources : list str) : Outcome.t :=
  {| Outcome.status := lit "success"; Outcome.video_id := video_id;
     Outcome.title := Some title; Outcome.dish_name := Some dish_name;
     Outcome.sources := Some sources; Outcome.message := None |}.

Definition get_recipes : M (list Recipe.t) := λ st, (Ok (recipes st), st).

Definition execute_insert (w : World)
    (video_id title description ingredients : str) (dish_name : json)
    (url data_sources : str) : M unit := λ st,
  match insert_recipe w video_id title description ingredients dish_name
          url data_sources (recipes st) with
  | Ok rows =>
    (Ok (), {| recipes := rows;
               processing_status := processing_status st;
               clock := clock st |})
  | Raise e => (Raise e, st)
  end.

(** [if value: data_dict[key] = value] *)
Definition set_if_nonempty (key : str) (value : option str)
    (data_dict : gmap str str) : gmap str str :=
  match value with
  | Some (c :: s) => <[key := c :: s]> data_dict
  | _ => data_dict
  end.

(** [','.join(sources) if sources else "없음"] *)
Definition sources_str_of (sources : list str) : str :=
  match sources with
  | [] => lit "없음"
  | _ => join [comma] sources
  end.

Definition process_single_video (w : World) (video_id session_id : str)
    (current_index total_videos : nat) : M Outcome.t :=
  rows ← get_recipes;
  if check_if_video_exists video_id rows then
    update_status w session_id current_index total_videos
      (lit "이미 처리된 영상") (lit "");;
    mret (skipped video_id)
  else
    try_except
      (update_status w session_id current_index total_videos
         (lit "영상 정보 가져오는 중...") (lit "");;
       match get_video_info w video_id with
       | None => mret (error video_id None)
       | Some video_info =>
         let title := vi_title video_info in
         let description := vi_description video_info in
         let video_url := vi_url video_info in
         let data_dict : gmap str str := ∅ in
         update_status w session_id current_index total_videos
           (lit "자막 확인 중...") title;;
         let transcript := get_video_transcript w video_id in
         let data_dict := set_if_nonempty k_transcript transcript data_dict in
         let data_dict :=
           set_if_nonempty k_description (Some description) data_dict in
         update_status w session_id current_index total_videos
           (lit "댓글 수집 중...") title;;
         let comments := get_video_comments w video_id in
         let data_dict := set_if_nonempty k_comments comments data_dict in
         update_status w session_id current_index total_videos
           (lit "AI 분석 중...") title;;
         let '(dish_name, ingredients, sources) :=
           analyze_with_gemini w data_dict title in
         let sources_str := sources_str_of sources in
         execute_insert w video_id title description ingredients dish_name
           video_url sources_str;;
         update_status w session_id current_index total_videos
           (lit "완료!") title;;
         mret (success video_id title dish_name sources)
       end)
      (λ e,
         update_status w session_id current_index total_videos
           (lit "오류: " ++ take 30 (exn_text w e)) (lit "");;
         mret (error video_id (Some (exn_text w e)))).

(** ** The batch driver *)

Definition FREE_TIER_LIMIT : nat := 10.

(** [for idx, video_id in enumerate(video_ids, 1)] with [results.append];
    the [time.sleep(2)] after each item changes no state. *)
Fixpoint process_each (w : World) (session_id : str) (total_videos : nat)
    (idx : nat) (video_ids : list str) : M (list Outcome.t) :=
  match video_ids with
  | [] => mret []
  | video_id :: rest =>
    r ← process_single_video w video_id session_id idx total_videos;
    rs ← process_each w session_id total_videos (S idx) rest;
    mret (r :: rs)
  end.

(** The three writes that close a run, into the entry [start_processing]
    and the item processor wrote before. *)
Definition mark_completed (session_id : str) (success_count total : nat)
  : M unit := λ st,
  (Ok (),
   {| recipes := recipes st;
      processing_status :=
        alter (λ s,
                 {| RunStatus.current := RunStatus.current s;
                    RunStatus.total := total;
                    RunStatus.percentage := RunStatus.percentage s;
                    RunStatus.status := RunStatus.status s;
                    RunStatus.video_title := RunStatus.video_title s;
                    RunStatus.timestamp := RunStatus.timestamp s;
                    RunStatus.completed := Some true;
                    RunStatus.success_count := Some success_count |})
          session_id (processing_status st);
      clock := clock st |}).

Definition process_videos (w : World) (session_id : str)
    (video_ids : list str) : M (list Outcome.t) :=
  results ← process_each w session_id (length video_ids) 1 video_ids;
  let success_count :=
    length (filter (λ r, Outcome.status r = lit "success") results) in
  mark_completed session_id success_count (length video_ids);;
  mret results.

(** The run a call of [start_processing] starts, taken on its own and as
    one step: the outcomes are the [results] list of its worker thread. *)
Definition start_processing (w : World) (playlist_id session_id : str)
  : M (list Outcome.t) :=
  let video_ids := get_playlist_items w playlist_id in
  let video_ids :=
    if (FREE_TIER_LIMIT <? length video_ids)%nat
    then take FREE_TIER_LIMIT video_ids
    else video_ids in
  update_status w session_id 0 (length video_ids)
    (lit "처리 준비 중...") (lit "");;
  process_videos w session_id video_ids.

(** ** SQLite's LIKE *)

Definition percent : char := 37.
Definition underscore : char := 95.

(** ASCII upper case letters fold to lower case; nothing else does. *)
Definition tolower (c : char) : char :=
  if (65 <=? c) && (c <=? 90) then c + 32 else c.

(** SQLite's [patternCompare] for LIKE without an ESCAPE clause, on the
    characters of the pattern and of the text: [%] matches any run of
    characters, [_] any one character, a letter matches itself up to
    ASCII case. *)
Fixpoint pattern_compare (pattern s : str) : bool :=
  match pattern with
  | [] => match s with [] => true | _ :: _ => false end
  | c :: pattern' =>
    if c =? percent then
      (fix any_run (s : str) : bool :=
         pattern_compare pattern' s
         || match s with [] => false | _ :: s' => any_run s' end) s
    else
      match s with
      | [] => false
      | d :: s' =>
        ((c =? underscore) || (tolower c =? tolower d))
        && pattern_compare pattern' s'
      end
  end.

(** What a function that reads a text as a C string sees of it: the
    characters before the first U+0000. *)
Fixpoint c_str (s : str) : str :=
  match s with
  | [] => []
  | c :: s' => if c =? 0 then [] else c :: c_str s'
  end.

(** [s LIKE pattern]: SQLite compares the pattern and the text as C
    strings. *)
Definition like (pattern s : str) : bool :=
  pattern_compare (c_str pattern) (c_str s).

(** The number of bytes of a text in UTF-8. *)
Definition utf8_length (s : str) : N :=
  foldr (λ c n,
           (if c <? 128 then 1
            else if c <? 2048 then 2
            else if c <? 65536 then 3
            else 4) + n) 0 s.

(** SQLite's default limits: the depth of an expression tree, the
    number of bytes of a LIKE pattern and the number of bytes of a text;
    and the largest length sqlite3 hands to SQLite. *)
Definition SQLITE_MAX_EXPR_DEPTH : nat := 1000.
Definition SQLITE_MAX_LIKE_PATTERN_LENGTH : N := 50000.
Definition SQLITE_MAX_LENGTH : N := 1000000000.
Definition INT_MAX : N := 2147483647.

(** What sqlite3 says of a text bound to a [?]. *)
Definition bind_text (s : str) : result unit :=
  if INT_MAX <? utf8_length s then Raise OverflowError
  else if SQLITE_MAX_LENGTH <? utf8_length s then Raise DataError
  else Ok ().

(** The values of a statement are bound one after the other. *)
Fixpoint bind_all (values : list str) : result unit :=
  match values with
  | [] => Ok ()
  | v :: values' => _ ← bind_text v; bind_all values'
  end.

(** The SQL function behind [LIKE]: a pattern of more bytes than the
    limit, U+0000 and what follows it included, is an error (LIKE or
    GLOB pattern too complex). *)
Definition like_function (pattern s : str) : result bool :=
  if SQLITE_MAX_LIKE_PATTERN_LENGTH <? utf8_length pattern
  then Raise OperationalError
  else Ok (like pattern s).

(** [ingredients LIKE ? OR ingredients LIKE ? OR ...] on one row: the
    terms are evaluated from left to right up to the first that holds. *)
Fixpoint where_any (values : list str) (ingredients : str) : result bool :=
  match values with
  | [] => Ok false
  | v :: values' =>
    b ← like_function v ingredients;
    if b : bool then Ok true else where_any values' ingredients
  end.

(** The scan of the table, in rowid order. *)
Fixpoint scan (values : list str) (rows : list Recipe.t)
  : result (list Recipe.t) :=
  match rows with
  | [] => Ok []
  | r :: rows' =>
    b ← where_any values (Recipe.ingredients r);
    results ← scan values rows';
    Ok (if b : bool then r :: results else results)
  end.

(** [cursor.execute(f"SELECT * FROM recipes WHERE {conditions}", values)]
    and [fetchall()], on a connection opened for the request;
    [conditions] joins one [ingredients LIKE ?] per value with [OR].
    Without a condition the statement ends after [WHERE] and SQLite
    rejects it (incomplete input). A chain of [n] terms is an expression
    tree of depth [n + 1], which SQLite rejects when it exceeds the limit
    (expression tree is too large), before any value is bound; the
    values are bound before any row is read. *)
Definition select_where (conditions : str) (values : list str)
    (rows : list Recipe.t) : result (list Recipe.t) :=
  if decide (conditions = []) then Raise OperationalError
  else if (SQLITE_MAX_EXPR_DEPTH <? length values + 1)%nat
  then Raise OperationalError
  else _ ← bind_all values; scan values rows.

(** ** The recommendation matcher *)

(** The order in which Python iterates over a set of strings: some
    enumeration of its elements, fixed for the process by its hash seed. *)
Record set_iteration := {
  iter : gset str → list str;
  iter_perm : ∀ s, iter s ≡ₚ elements s;
}.

Module RecipeView.
(** One entry of the rendered [recipes] list. [dish_name] is the stored
    text, [None] for NULL. [match_rate] is the text
    [f"{match_rate:.1f}"], held as its number of tenths; the three
    joined sets are held as sets, their order on the page being that of
    Python's set iteration; [sources] is the stored [data_sources], which
    the only insert of the program never leaves null. *)
Record t := {
  title : str;
  url : str;
  dish_name : option str;
  match_rate : Z;
  matched : gset str;
  missing : gset str;
  all_ingredients : gset str;
  sources : str;
}.
End RecipeView.

(** [render_template('recommend.html', ...)] *)
Inductive page :=
| Message (message : str)
| Recipes (recipes : list RecipeView.t) (user_ingredients : str).

(** [set(i.strip() for i in text.split(',') if i.strip())] *)
Definition parse_ingredients (text : str) : gset str :=
  list_to_set (strip <$> filter (λ i, strip i ≠ []) (split comma text)).

(** [(len(matched) / len(recipe_ings) * 100) if recipe_ings else 0] *)
Definition match_rate (matched recipe_ings : gset str) : float :=
  if decide (recipe_ings = ∅) then float_of_nat 0
  else PrimFloat.mul
         (PrimFloat.div (float_of_nat (size matched))
                        (float_of_nat (size recipe_ings)))
         (float_of_nat 100).

Definition view (user_ingredients : gset str) (row : Recipe.t)
  : RecipeView.t :=
  let recipe_ings := parse_ingredients (Recipe.ingredients row) in
  let matched := user_ingredients ∩ recipe_ings in
  let missing := recipe_ings ∖ user_ingredients in
  {| RecipeView.title := Recipe.title row;
     RecipeView.url := Recipe.url row;
     RecipeView.dish_name := Recipe.dish_name row;
     RecipeView.match_rate := format_1f (match_rate matched recipe_ings);
     RecipeView.matched := matched;
     RecipeView.missing := missing;
     RecipeView.all_ingredients := recipe_ings;
     RecipeView.sources := Recipe.data_sources row |}.

(** [l.sort(key=key, reverse=True)]: descending and stable. [float] of the
    formatted rate grows strictly with its number of tenths, so the key
    is that number. *)
Fixpoint insert_desc {A} (key : A → Z) (x : A) (l : list A) : list A :=
  match l with
  | [] => [x]
  | y :: l' =>
    if (key y <=? key x)%Z then x :: y :: l'
    else y :: insert_desc key x l'
  end.

Definition sort_desc {A} (key : A → Z) (l : list A) : list A :=
  foldr (insert_desc key) [] l.

(** The order of a list sorted by [sort_desc]: keys do not grow. *)
Definition descending {A} (key : A → Z) (a b : A) : Prop :=
  (key b ≤ key a)%Z.

(** The query of [recommend_recipe]: from [conditions = ...] to
    [fetchall()]. Both list comprehensions iterate over the same set. *)
Definition fetch_candidates (order : set_iteration)
    (user_ingredients : gset str) (rows : list Recipe.t)
  : result (list Recipe.t) :=
  let conditions :=
    join (lit " OR ")
      ((λ _, lit "ingredients LIKE ?") <$> iter order user_ingredients) in
  let values :=
    (λ ing, [percent] ++ ing ++ [percent])
      <$> iter order user_ingredients in
  select_where conditions values rows.

Definition recommend_recipe (order : set_iteration) (rows : list Recipe.t)
    (user_ingredients_input : str) : result page :=
  if decide (user_ingredients_input = []) then
    Ok (Message (lit "재료를 입력해주세요."))
  else
    let user_ingredients := parse_ingredients user_ingredients_input in
    results ← fetch_candidates order user_ingredients rows;
    if decide (results = []) then
      Ok (Message
            (lit "해당 재료로 만들 수 있는 레시피를 찾을 수 없습니다."))
    else
      Ok (Recipes
            (sort_desc RecipeView.match_rate (view user_ingredients <$> results))
            user_ingredients_input).

(** ** Predicates and inputs used in the statements *)

(** No two commas in a row. *)
Fixpoint single_commas (s : str) : Prop :=
  match s with
  | c :: (d :: _) as s' => ¬ (c = comma ∧ d = comma) ∧ single_commas s'
  | _ => True
  end.

(** A canonical ingredient list: no whitespace, no two commas in a row,
    no comma at either end. *)
Definition canonical (out : str) : Prop :=
  (∀ c, c ∈ out → isspace c = false)
  ∧ ¬ substring [comma; comma] out
  ∧ head out ≠ Some comma
  ∧ last out ≠ Some comma.

(** The text the extractor hands to [json.loads]. *)
Definition answer_of (text : str) : str :=
  strip_fence_close (strip_fence_open (strip text)).

(** The prompt the extractor sends for a given input. *)
Definition prompt_of (data_dict : gmap str str) (title : str) : str :=
  prompt title (join (lit "

") (available_data data_dict)).

(** The three source slots with their labels, in the builder's order. *)
Definition source_slots : list (str * str) :=
  [(k_transcript, src_transcript);
   (k_description, src_description);
   (k_comments, src_comments)].

(** The labels of the slots that are filled, as the specification words
    it: the available subset. *)
Definition available_subset (data_dict : gmap str str) : list str :=
  snd <$> filter (λ kv, slot_filled data_dict kv.1 = true) source_slots.

(** The answer [[{"dish_name":"X","ingredients":["a","b"]}]], parsed. *)
Definition wrapped_record : json :=
  JList [JDict (<[lit "dish_name" := JStr (lit "X")]>
                 (<[lit "ingredients" := JList [JStr (lit "a"); JStr (lit "b")]]>
                    ∅))].

(** A world whose services are all down, to be overridden field by
    field. *)
Definition silent_world : World :=
  {| youtube_videos := λ _, Raise ServiceError;
     get_playlist_items := λ _, [];
     get_video_transcript := λ _, None;
     get_video_comments := λ _, None;
     generate_content := λ _, None;
     json_loads := λ _, None;
     time_time := λ n, PrimFloat.of_uint63 (Uint63.of_Z (Z.of_nat n));
     exn_text := λ _, lit "error";
     real_text := λ _, lit "0.0" |}.

(** A world where a video has a title and a description, the model
    answers [text], and the answer parses to [parsed]. *)
Definition answering_world (text : str) (parsed : option json) : World :=
  {| youtube_videos := λ _, Ok [(lit "Kimchi stew", lit "pork, kimchi")];
     get_playlist_items := get_playlist_items silent_world;
     get_video_transcript := get_video_transcript silent_world;
     get_video_comments := get_video_comments silent_world;
     generate_content := λ _, Some text;
     json_loads := λ _, parsed;
     time_time := time_time silent_world;
     exn_text := exn_text silent_world;
     real_text := real_text silent_world |}.

(** An input with the description slot alone. *)
Definition description_only : gmap str str :=
  {[ k_description := lit "pork, kimchi" ]}.

(** The [data_dict] the item processor collects for a video. *)
Definition collected_data (w : World) (video_id description : str)
  : gmap str str :=
  set_if_nonempty k_comments (get_video_comments w video_id)
    (set_if_nonempty k_description (Some description)
       (set_if_nonempty k_transcript (get_video_transcript w video_id) ∅)).

(** The row the item processor inserts for a video with metadata [info],
    when the insert goes through. *)
Definition recipe_row (w : World) (video_id : str) (info : video_info)
  : Recipe.t :=
  let r := analyze_with_gemini w
             (collected_data w video_id (vi_description info))
             (vi_title info) in
  {| Recipe.video_id := video_id;
     Recipe.title := vi_title info;
     Recipe.description := vi_description info;
     Recipe.ingredients := r.1.2;
     Recipe.dish_name := match bind_parameter w r.1.1 with
                         | Ok text => text
                         | Raise _ => None
                         end;
     Recipe.url := vi_url info;
     Recipe.data_sources := sources_str_of r.2 |}.

(** A JSON text written with ['] for the double quote. *)
Definition json_text (s : string) : str :=
  (λ c, if c =? 39 then quote else c) <$> lit s.

Definition empty_state : State :=
  {| recipes := []; processing_status := ∅; clock := 0 |}.

(** The model's answer of the specification's example, and a world that
    returns it for a video with a description. *)
Definition wrapped_text : str :=
  json_text "[{'dish_name':'X','ingredients':['a','b']}]".

Definition wrapped_world : World :=
  answering_world wrapped_text (Some wrapped_record).

(** The same video when the model's answer is not JSON. *)
Definition malformed_world : World :=
  answering_world (lit "Sorry, I cannot help with that.") None.

Definition some_video : str := lit "dQw4w9WgXcQ".
Definition some_session : str := lit "5f2a".

(** The iteration in the order of stdpp's [elements]. *)
Definition elements_order : set_iteration :=
  {| iter := elements; iter_perm := λ s, Permutation_refl (elements s) |}.

(** A stored recipe with the given ingredients. *)
Definition recipe_with (name : string) (ingredients : str) : Recipe.t :=
  {| Recipe.video_id := lit name;
     Recipe.title := lit name;
     Recipe.description := lit "";
     Recipe.ingredients := ingredients;
     Recipe.dish_name := Some (lit name);
     Recipe.url := lit "https://www.youtube.com/watch?v=" ++ lit name;
     Recipe.data_sources := lit "설명" |}.

(** The specification's ranking example: R1 holds {a,b,c}, R2 holds
    {a,b}. *)
Definition R1 : Recipe.t := recipe_with "R1" (lit "a,b,c").
Definition R2 : Recipe.t := recipe_with "R2" (lit "a,b").

(** Two recipes that hold [a] among 51 and among 50 ingredients. *)
Definition many_ingredients (n : nat) : str :=
  join [comma] (lit "a" :: ((λ k, [44032 + N.of_nat k]) <$> seq 0 n)).
Definition big51 : Recipe.t := recipe_with "big51" (many_ingredients 50).
Definition big50 : Recipe.t := recipe_with "big50" (many_ingredients 49).

(** The rate of the specification, before it is formatted. *)
Definition row_match_rate (user_ingredients : gset str) (row : Recipe.t)
  : float :=
  let recipe_ings := parse_ingredients (Recipe.ingredients row) in
  match_rate (user_ingredients ∩ recipe_ings) recipe_ings.

(** A world that only knows a playlist. *)
Definition playlist_world (video_ids : list str) : World :=
  {| youtube_videos := youtube_videos silent_world;
     get_playlist_items := λ _, video_ids;
     get_video_transcript := get_video_transcript silent_world;
     get_video_comments := get_video_comments silent_world;
     generate_content := generate_content silent_world;
     json_loads := json_loads silent_world;
     time_time := time_time silent_world;
     exn_text := exn_text silent_world;
     real_text := real_text silent_world |}.

(** A playlist of 37 items. *)
Definition playlist_37 : list str := (λ n, [N.of_nat n]) <$> seq 100 37.

(** A world where every video of the playlist has metadata and the model
    answers with the specification's example. *)
Definition cooking_world (video_ids : list str) : World :=
  {| youtube_videos := youtube_videos wrapped_world;
     get_playlist_items := λ _, video_ids;
     get_video_transcript := get_video_transcript wrapped_world;
     get_video_comments := get_video_comments wrapped_world;
     generate_content := generate_content wrapped_world;
     json_loads := json_loads wrapped_world;
     time_time := time_time wrapped_world;
     exn_text := exn_text wrapped_world;
     real_text := real_text wrapped_world |}.

(** The value the extractor reads as the record of a parsed answer: the
    answer itself, or the first element of a list; an empty list has
    none. *)
Definition record_of (data : json) : option json :=
  match data with
  | JList [] => None
  | JList (first :: _) => Some first
  | _ => Some data
  end.

Definition json_str (v : json) : option str :=
  match v with
  | JStr s => Some s
  | _ => None
  end.

(** The ingredients text of a record, before it is normalized: the
    value under [ingredients] when it is a text, the comma-joined items
    when it is a list of texts, the empty text when the key is absent;
    no other value is an ingredients text. *)
Definition ingredients_text (value : option json) : option str :=
  match value with
  | None => Some []
  | Some (JStr s) => Some s
  | Some (JList l) => join [comma] <$> mapM json_str l
  | Some _ => None
  end.

(** Processing items one after the other, as the specification words it:
    the items of [video_ids] are handed to the item processor in order,
    with the indexes [idx], [idx + 1], ...; each call starts in the state
    the call before it left, and [results] lists the outcomes in the same
    order. *)
Inductive processed_in_order (w : World) (session_id : str) (total : nat)
  : nat → list str → State → list Outcome.t → State → Prop :=
| processed_none idx st :
    processed_in_order w session_id total idx [] st [] st
| processed_next idx video_id rest st o st1 results st2 :
    process_single_video w video_id session_id idx total st = (Ok o, st1) →
    processed_in_order w session_id total (S idx) rest st1 results st2 →
    processed_in_order w session_id total idx (video_id :: rest) st
      (o :: results) st2.

(** ** The playlist form and the processing page *)

(** What the two playlist routes answer. *)
Inductive response :=
| BadRequest (message : str)
| RedirectToProcessing (playlist_id session_id : str)
| ProcessingPage (session_id : str) (total_videos original_count : nat)
    (limited : bool) (playlist_id : str).

(** The character class [[a-zA-Z0-9_-]]. *)
Definition is_id_char (c : char) : bool :=
  ((97 <=? c) && (c <=? 122)) || ((65 <=? c) && (c <=? 90))
  || ((48 <=? c) && (c <=? 57)) || (c =? 95) || (c =? 45).

Fixpoint take_while (p : char → bool) (s : str) : str :=
  match s with
  | [] => []
  | c :: s' => if p c then c :: take_while p s' else []
  end.

(** [re.search(r'list=([a-zA-Z0-9_-]+)', url)] and its [group(1)]: the
    leftmost place where [list=] is followed by a character of the class,
    and the longest run of such characters there. *)
Fixpoint search_list_id (url : str) : option str :=
  match url with
  | [] => None
  | _ :: url' =>
    match strip_prefix (lit "list=") url with
    | Some rest =>
      match take_while is_id_char rest with
      | [] => search_list_id url'
      | c :: group => Some (c :: group)
      end
    | None => search_list_id url'
    end
  end.

(** [process_playlist]; [playlist_url] is [request.form.get('playlist_url')]
    and [fresh_id] the [os.urandom(16).hex()] drawn for the session. *)
Definition process_playlist (playlist_url : option str) (fresh_id : str)
  : response :=
  match playlist_url with
  | None | Some [] => BadRequest (lit "플레이리스트 URL을 입력하세요.")
  | Some url =>
    match search_list_id url with
    | None => BadRequest (lit "유효하지 않은 플레이리스트 URL입니다.")
    | Some playlist_id => RedirectToProcessing playlist_id fresh_id
    end
  end.

(** [process_playlist_manual]; [session_arg] is the [session_id] query
    argument when the request has one. *)
Definition process_playlist_manual (w : World) (playlist_id : str)
    (session_arg : option str) (fresh_id : str) : response :=
  let session_id := default fresh_id session_arg in
  let video_ids := get_playlist_items w playlist_id in
  match video_ids with
  | [] => BadRequest (lit "플레이리스트를 불러올 수 없습니다.")
  | _ =>
    let original_count := length video_ids in
    let '(video_ids, limited) :=
      if (FREE_TIER_LIMIT <? length video_ids)%nat
      then (take FREE_TIER_LIMIT video_ids, true)
      else (video_ids, false) in
    ProcessingPage session_id (length video_ids) original_count limited
      playlist_id
  end.

(** ** The fetchers *)

Module Youtube.

(** One page of [playlistItems().list(...)]: for each item its
    [contentDetails.videoId] when both keys are there, and the
    [nextPageToken] when the response has one. *)
Record playlist_page := {
  items : list (option str);
  nextPageToken : option str;
}.

(** The loop of [get_playlist_items] for a service [api] that maps a page
    token to the response of [execute()]. [None] when [fuel] requests were
    not enough to reach the last page. *)
Fixpoint playlist_loop (fuel : nat) (api : option str → result playlist_page)
    (next_page_token : option str) (video_ids : list str)
  : option (result (list str)) :=
  match fuel with
  | O => None
  | S fuel' =>
    match api next_page_token with
    | Raise e => Some (Raise e)
    | Ok response =>
      let video_ids := video_ids ++ omap id (items response) in
      match nextPageToken response with
      | Some (c :: token) => playlist_loop fuel' api (Some (c :: token)) video_ids
      | _ => Some (Ok video_ids)
      end
    end
  end.

Definition get_playlist_items (fuel : nat)
    (api : option str → result playlist_page) : option (list str) :=
  match playlist_loop fuel api None [] with
  | Some (Ok video_ids) => Some video_ids
  | Some (Raise _) => Some []
  | None => None
  end.

Definition lt : char := 60.
Definition gt : char := 62.

(** [re.sub(r'<[^>]+>', '', s)]. [pending] holds the characters read
    since a [<] that may open a tag; they are dropped when a [>] closes
    the tag and kept when none does. *)
Fixpoint strip_tags_from (pending : option str) (s : str) : str :=
  match s with
  | [] =>
    match pending with
    | None => []
    | Some inside => lt :: inside
    end
  | c :: s' =>
    match pending with
    | None =>
      if c =? lt then strip_tags_from (Some []) s'
      else c :: strip_tags_from None s'
    | Some inside =>
      if c =? gt then
        match inside with
        | [] => lt :: gt :: strip_tags_from None s'
        | _ :: _ => strip_tags_from None s'
        end
      else strip_tags_from (Some (inside ++ [c])) s'
    end
  end.

Definition strip_tags (s : str) : str := strip_tags_from None s.

(** [get_video_comments] for the response of
    [commentThreads().list(...).execute()]: per item the [textDisplay] of
    its top level comment, [None] where that path of keys is broken (the
    [KeyError] ends in the [except] like any failure of the request). *)
Definition get_video_comments (response : result (list (option str)))
  : option str :=
  match response with
  | Raise _ => None
  | Ok items =>
    match mapM id items with
    | None => None
    | Some comments => Some (join (lit " | ") (strip_tags <$> comments))
    end
  end.

(** What the transcript library raises. *)
Inductive transcript_error :=
| TranscriptsDisabled
| VideoUnavailable
| NoTranscriptFound
| OtherError.

Inductive fetched (A : Type) :=
| Got (a : A)
| Failed (e : transcript_error).
Arguments Got {A} a.
Arguments Failed {A} e.

(** An element of a fetched transcript: an object with a [text]
    attribute, a dict, or anything else. *)
Inductive snippet :=
| TextSnippet (text : str)
| DictSnippet (d : gmap str str)
| OtherSnippet.

Record transcript := {
  language_code : str;
  fetch : fetched (list snippet);
}.

(** [ytt_api.list(video_id)], with what its two finders answer for the
    languages [['ko', 'en']]. *)
Record transcript_list := {
  find_manually_created_transcript : fetched transcript;
  find_generated_transcript : fetched transcript;
}.

Definition snippet_text (s : snippet) : option str :=
  match s with
  | TextSnippet text => Some text
  | DictSnippet d => Some (default [] (d !! lit "text"))
  | OtherSnippet => None
  end.

(** Steps 3 and 4: the manual transcript, else the generated one. *)
Definition find_transcript (tl : transcript_list) : fetched transcript :=
  match find_manually_created_transcript tl with
  | Got t => Got t
  | Failed NoTranscriptFound => find_generated_transcript tl
  | Failed e => Failed e
  end.

Definition get_video_transcript (listing : fetched transcript_list)
  : option str :=
  match listing with
  | Failed _ => None
  | Got tl =>
    match find_transcript tl with
    | Failed _ => None
    | Got t =>
      match fetch t with
      | Failed _ => None
      | Got transcript_data =>
        let text_parts := omap snippet_text transcript_data in
        match join (lit " ") text_parts with
        | [] => None
        | c :: text => Some (c :: text)
        end
      end
    end
  end.

End Youtube.

(** ** Predicates and inputs of the further properties *)

(** [t in s], decided. *)
Fixpoint is_substring (t s : str) : bool :=
  match strip_prefix t s with
  | Some _ => true
  | None =>
    match s with
    | [] => false
    | _ :: s' => is_substring t s'
    end
  end.

(** The address the form suggests, up to the playlist id. *)
Definition playlist_url_prefix : str :=
  lit "https://www.youtube.com/playlist?".

(** [sum(1 for r in results if r.get('status') == 'success')] *)
Definition successes (results : list Outcome.t) : nat :=
  length (filter (λ r, Outcome.status r = lit "success") results).

(** The ids of the stored recipes, in scan order. *)
Definition stored_ids (rows : list Recipe.t) : list str :=
  Recipe.video_id <$> rows.

(** The service answers the requests that start with [token] with the
    pages [pages], the last of which names no further page. *)
Inductive page_chain (api : option str → result Youtube.playlist_page)
  : option str → list Youtube.playlist_page → Prop :=
| chain_last token page :
    api token = Ok page →
    Youtube.nextPageToken page = None ∨ Youtube.nextPageToken page = Some [] →
    page_chain api token [page]
| chain_next token page c next pages :
    api token = Ok page →
    Youtube.nextPageToken page = Some (c :: next) →
    page_chain api (Some (c :: next)) pages →
    page_chain api token (page :: pages).

(** The service answers the requests that start with [token] with the
    pages [pages] and fails on the request after them. *)
Inductive broken_chain (api : option str → result Youtube.playlist_page)
  : option str → list Youtube.playlist_page → Prop :=
| broken_here token e :
    api token = Raise e → broken_chain api token []
| broken_later token page c next pages :
    api token = Ok page →
    Youtube.nextPageToken page = Some (c :: next) →
    broken_chain api (Some (c :: next)) pages →
    broken_chain api token (page :: pages).

(** The video ids on some pages, in order. *)
Definition page_ids (pages : list Youtube.playlist_page) : list str :=
  concat ((λ page, omap id (Youtube.items page)) <$> pages).

(** A playlist of two pages, and the same playlist when the request for
    its second page fails. *)
Definition two_pages (second : result Youtube.playlist_page)
    (token : option str) : result Youtube.playlist_page :=
  match token with
  | None =>
    Ok {| Youtube.items := [Some (lit "v1"); None; Some (lit "v2")];
          Youtube.nextPageToken := Some (lit "p2") |}
  | Some _ => second
  end.

Definition second_page : Youtube.playlist_page :=
  {| Youtube.items := [Some (lit "v3")]; Youtube.nextPageToken := None |}.

(** [re.search(r'<[^>]+>', s)] finds a tag in [s]. *)
Definition has_tag (s : str) : Prop :=
  ∃ pre inside post,
    s = pre ++ [Youtube.lt] ++ inside ++ [Youtube.gt] ++ post
    ∧ inside ≠ []
    ∧ Youtube.gt ∉ inside.

(** After every [<] comes a [>] at once or never. *)
Definition tag_free (s : str) : Prop :=
  ∀ pre rest,
    s = pre ++ Youtube.lt :: rest →
    head rest = Some Youtube.gt ∨ Youtube.gt ∉ rest.

(** The separator between the sources in the prompt. *)
Definition blank_line : str := lit "

".

(** The character budgets of the three slots. *)
Definition slot_budgets : list (str * nat) :=
  [(k_transcript, 2000%nat); (k_description, 1000%nat);
   (k_comments, 800%nat)].

(** A text of whitespace only. *)
Definition blank (s : str) : Prop := Forall (λ c, isspace c = true) s.

(** A non-empty text that neither starts nor ends with whitespace. *)
Definition trimmed (s : str) : Prop :=
  (∃ c, head s = Some c ∧ isspace c = false)
  ∧ (∃ c, last s = Some c ∧ isspace c = false).

Definition backtick : char := 96.

(** * Properties *)

(** ** Strings and normalization at concrete inputs *)

Example lit_ascii : lit "a,b" = [97; 44; 98].
Proof. reflexivity. Qed.

Example lit_hangul : lit "없음" = [50630; 51020].
Proof. reflexivity. Qed.

Example split_empty : split comma (lit "") = [[]].
Proof. reflexivity. Qed.

Example split_commas_only : split comma (lit ",, ,") = [[]; []; [32]; []].
Proof. reflexivity. Qed.

Example strip_example : strip (lit "  b	 ") = lit "b".
Proof. reflexivity. Qed.

Example normalize_example :
  normalize_ingredients (lit "a, b ,, a") = lit "a,b,a".
Proof. reflexivity. Qed.

Example strip_fences_example :
  strip_fence_close (strip_fence_open (lit "```json
{}
```")) = lit "{}".
Proof. reflexivity. Qed.


(** ** Stripping *)

Section Stripping.
Variable p : char → bool.

Lemma drop_while_suffix s : drop_while p s `suffix_of` s.
Proof.
  induction s as [|c s IH]; simpl; [done|].
  destruct (p c); [by apply suffix_cons_r | done].
Qed.

Lemma drop_while_head s c : head (drop_while p s) = Some c → p c = false.
Proof.
  induction s as [|d s IH]; simpl; [done|].
  destruct (p d) eqn:Hd; [done|]. simpl. by intros [= <-].
Qed.

Lemma rstrip_by_prefix s : rstrip_by p s `prefix_of` s.
Proof.
  unfold rstrip_by. destruct (drop_while_suffix (reverse s)) as [k Hk].
  exists (reverse k).
  rewrite <- reverse_app, <- Hk. by rewrite reverse_involutive.
Qed.

Lemma rstrip_by_last s c : last (rstrip_by p s) = Some c → p c = false.
Proof.
  unfold rstrip_by. rewrite last_reverse. apply drop_while_head.
Qed.

Lemma lstrip_by_suffix s : lstrip_by p s `suffix_of` s.
Proof. apply drop_while_suffix. Qed.

Lemma lstrip_by_head s c : head (lstrip_by p s) = Some c → p c = false.
Proof. apply drop_while_head. Qed.
End Stripping.

Lemma prefix_head (s t : str) c :
  s `prefix_of` t → head s = Some c → head t = Some c.
Proof. intros [k ->]. by destruct s. Qed.

Lemma strip_commas_infix s :
  ∃ pre post, s = pre ++ strip_commas s ++ post.
Proof.
  unfold strip_commas.
  destruct (lstrip_by_suffix (N.eqb comma) s) as [pre Hpre].
  destruct (rstrip_by_prefix (N.eqb comma) (lstrip_by (N.eqb comma) s))
    as [post Hpost].
  exists pre, post. by rewrite <- Hpost.
Qed.

Lemma strip_commas_head s : head (strip_commas s) ≠ Some comma.
Proof.
  intros H. unfold strip_commas in H.
  eapply prefix_head in H; [|apply rstrip_by_prefix].
  by apply lstrip_by_head in H.
Qed.

Lemma strip_commas_last s : last (strip_commas s) ≠ Some comma.
Proof. intros H. by apply rstrip_by_last in H. Qed.

(** ** Normalization *)

Lemma remove_whitespace_spec s c :
  c ∈ remove_whitespace s ↔ c ∈ s ∧ isspace c = false.
Proof. unfold remove_whitespace. rewrite list_elem_of_filter. tauto. Qed.

Lemma collapse_commas_from_elem b s c :
  c ∈ collapse_commas_from b s → c ∈ s.
Proof.
  revert b. induction s as [|d s IH]; intros b; simpl; [done|].
  destruct (N.eqb_spec d comma) as [->|Hd].
  - destruct b; [|rewrite elem_of_cons; intros [->|H]];
      rewrite elem_of_cons; eauto.
  - rewrite !elem_of_cons. intros [->|H]; eauto.
Qed.

Lemma collapse_commas_from_single b s :
  single_commas (collapse_commas_from b s)
  ∧ (b = true → head (collapse_commas_from b s) ≠ Some comma).
Proof.
  revert b. induction s as [|c s IH]; intros b; simpl; [done|].
  destruct (N.eqb_spec c comma) as [->|Hc].
  - destruct b.
    + apply IH.
    + split; [|done]. destruct (IH true) as [IH1 IH2].
      destruct (collapse_commas_from true s) as [|d t] eqn:E; [done|].
      split; [|done]. intros [_ ->]. by apply IH2.
  - split; [|simpl; congruence]. destruct (IH false) as [IH1 _].
    destruct (collapse_commas_from false s) as [|d t] eqn:E; [done|].
    split; [|done]. by intros [? _].
Qed.

Lemma single_commas_app_r s t : single_commas (s ++ t) → single_commas t.
Proof.
  induction s as [|c s IH]; simpl; [done|].
  destruct (s ++ t) eqn:E; [|tauto].
  intros _. apply app_eq_nil in E as [_ ->]. done.
Qed.

Lemma single_commas_no_pair (post : str) :
  single_commas ([comma; comma] ++ post) → False.
Proof. simpl. intros [H _]. by apply H. Qed.

Lemma single_commas_substring s :
  single_commas s → ¬ substring [comma; comma] s.
Proof.
  intros H (pre & post & ->).
  apply single_commas_app_r in H. by apply (single_commas_no_pair post).
Qed.

Lemma substring_trans (a b c : str) :
  substring a b → substring b c → substring a c.
Proof.
  intros (p1 & q1 & ->) (p2 & q2 & ->).
  exists (p2 ++ p1), (q1 ++ q2). by rewrite <- !(assoc_L (++)).
Qed.

Lemma normalize_ingredients_is_canonical s :
  canonical (normalize_ingredients s).
Proof.
  unfold normalize_ingredients.
  set (t := collapse_commas (remove_whitespace s)).
  destruct (strip_commas_infix t) as (pre & post & Ht).
  unfold canonical. split_and!.
  - intros c Hc.
    assert (c ∈ t) as Hct.
    { rewrite Ht, !elem_of_app. auto. }
    apply collapse_commas_from_elem, remove_whitespace_spec in Hct.
    tauto.
  - intros Hsub.
    apply (single_commas_substring t).
    + apply collapse_commas_from_single.
    + eapply substring_trans; [exact Hsub|]. by exists pre, post.
  - apply strip_commas_head.
  - apply strip_commas_last.
Qed.

Lemma empty_is_canonical : canonical [].
Proof.
  unfold canonical. split_and!; [|intros (pre & post & H)|done..].
  - by intros c ?%elem_of_nil.
  - symmetry in H. by apply app_eq_nil in H as [_ [=]].
Qed.

(** ** The inference extractor *)

Lemma analyze_body_unfold w data_dict title :
  analyze_body w data_dict title =
  if decide (available_data data_dict = []) then Ok (fallback title)
  else match generate_content w (prompt_of data_dict title) with
       | None => Raise ServiceError
       | Some text =>
         match json_loads w (answer_of text) with
         | None => Raise JSONDecodeError
         | Some (JList []) => Ok (fallback title)
         | Some (JList (first :: _)) => read_record data_dict title first
         | Some data => read_record data_dict title data
         end
       end.
Proof. reflexivity. Qed.

Lemma analyze_handles w data_dict title e :
  analyze_body w data_dict title = Raise e →
  analyze_with_gemini w data_dict title = fallback title.
Proof. unfold analyze_with_gemini. intros ->. by destruct e. Qed.

Lemma analyze_returns w data_dict title r :
  analyze_body w data_dict title = Ok r →
  analyze_with_gemini w data_dict title = r.
Proof. unfold analyze_with_gemini. by intros ->. Qed.

Lemma read_record_sources data_dict title data r :
  read_record data_dict title data = Ok r → r.2 = sources_of data_dict.
Proof.
  unfold read_record. destruct data; simpl; try done.
  destruct (default (JStr []) (d !! lit "ingredients")) as [| | | |s|l|];
    simpl; try done.
  - by intros [= <-].
  - destruct (str_items l); simpl; [|done]. by intros [= <-].
Qed.

Lemma read_record_ingredients data_dict title data r :
  read_record data_dict title data = Ok r →
  ∃ s, r.1.2 = normalize_ingredients s.
Proof.
  unfold read_record. destruct data; simpl; try done.
  destruct (default (JStr []) (d !! lit "ingredients")) as [| | | |s|l|];
    simpl; try done.
  - intros [= <-]. by exists s.
  - destruct (str_items l) as [items|]; simpl; [|done].
    intros [= <-]. by exists (join [comma] items).
Qed.

Lemma analyze_ingredients w data_dict title :
  (analyze_with_gemini w data_dict title).1.2 = []
  ∨ ∃ s, (analyze_with_gemini w data_dict title).1.2
         = normalize_ingredients s.
Proof.
  unfold analyze_with_gemini.
  destruct (analyze_body w data_dict title) as [r|e] eqn:E.
  - rewrite analyze_body_unfold in E.
    destruct (decide _); [injection E as <-; by left|].
    destruct (generate_content w _); [|done].
    destruct (json_loads w _) as [data|]; [|done].
    destruct data as [| | | | |[|first rest]|];
      try (right; by eapply read_record_ingredients).
    injection E as <-. by left.
  - left. by destruct e.
Qed.

(** C5. Whatever string reaches the normalization step, also one joined
    from a list-valued field, the normalized ingredients hold no
    whitespace character, no two consecutive commas, and neither start
    nor end with a comma; so do the ingredients of every result of the
    extractor. ["a, b ,, a"] becomes ["a,b,a"], as does the joined list
    [["a", " b ", "a"]]. *)
Theorem normalize_ingredients_canonical :
  (∀ s : str,
     let out := normalize_ingredients s in
     (∀ c, c ∈ out → isspace c = false)
     ∧ ¬ substring [comma; comma] out
     ∧ head out ≠ Some comma
     ∧ last out ≠ Some comma)
  ∧ (∀ items : list str,
       canonical (normalize_ingredients (join [comma] items)))
  ∧ (∀ w data_dict title,
       canonical (analyze_with_gemini w data_dict title).1.2)
  ∧ normalize_ingredients (lit "a, b ,, a") = lit "a,b,a"
  ∧ normalize_ingredients (join [comma] [lit "a"; lit " b "; lit "a"])
    = lit "a,b,a".
Proof.
  split_and!; [| | |reflexivity..].
  - intros s. apply normalize_ingredients_is_canonical.
  - intros items. apply normalize_ingredients_is_canonical.
  - intros w data_dict title.
    destruct (analyze_ingredients w data_dict title) as [->|[s ->]].
    + apply empty_is_canonical.
    + apply normalize_ingredients_is_canonical.
Qed.

(** C6. When the model answers and its answer parses to a JSON list, the
    extractor reads the first element as the record: the answer
    [[{"dish_name":"X","ingredients":["a","b"]}]] gives dish name ["X"]
    and ingredients ["a,b"], and the empty list gives [(title, "", [])]. *)
Theorem list_answer_first_element w data_dict title text :
  available_data data_dict ≠ [] →
  generate_content w (prompt_of data_dict title) = Some text →
  (∀ first rest,
     json_loads w (answer_of text) = Some (JList (first :: rest)) →
     analyze_with_gemini w data_dict title =
     match read_record data_dict title first with
     | Ok r => r
     | Raise _ => fallback title
     end)
  ∧ (json_loads w (answer_of text) = Some wrapped_record →
     analyze_with_gemini w data_dict title =
     (JStr (lit "X"), lit "a,b", sources_of data_dict))
  ∧ (json_loads w (answer_of text) = Some (JList []) →
     analyze_with_gemini w data_dict title = (JStr title, lit "", [])).
Proof.
  intros Havail Hgen.
  assert (∀ first rest,
            json_loads w (answer_of text) = Some (JList (first :: rest)) →
            analyze_body w data_dict title
            = read_record data_dict title first) as Hbody.
  { intros first rest Hj. rewrite analyze_body_unfold.
    rewrite decide_False by done. by rewrite Hgen, Hj. }
  split; [|split].
  - intros first rest Hj. unfold analyze_with_gemini.
    rewrite (Hbody _ _ Hj).
    destruct (read_record data_dict title first) as [r|e]; [done|].
    by destruct e.
  - intros Hj. apply analyze_returns. by rewrite (Hbody _ _ Hj).
  - intros Hj. apply analyze_returns. rewrite analyze_body_unfold.
    rewrite decide_False by done. by rewrite Hgen, Hj.
Qed.

Lemma list_answer_first_element_witness :
  analyze_with_gemini wrapped_world
    description_only (lit "Kimchi stew")
  = (JStr (lit "X"), lit "a,b", [src_description]).
Proof.
  refine (proj1 (proj2 (list_answer_first_element
                          wrapped_world
                          description_only (lit "Kimchi stew") wrapped_text
                          _ _)) _).
  - vm_compute. discriminate.
  - reflexivity.
  - reflexivity.
Defined.

(** C7. The extractor never raises: it is a total function into result
    triples, and whenever its body raises (the service call fails, the
    answer is not JSON, or reading the record fails) it returns
    [(title, "", [])]. *)
Theorem analyze_never_raises w data_dict title :
  (∀ e, analyze_body w data_dict title = Raise e →
        analyze_with_gemini w data_dict title = (JStr title, lit "", []))
  ∧ (generate_content w (prompt_of data_dict title) = None →
     analyze_with_gemini w data_dict title = (JStr title, lit "", []))
  ∧ (∀ text,
       generate_content w (prompt_of data_dict title) = Some text →
       json_loads w (answer_of text) = None →
       analyze_with_gemini w data_dict title = (JStr title, lit "", [])).
Proof.
  split; [|split].
  - intros e. apply analyze_handles.
  - intros Hgen. unfold analyze_with_gemini. rewrite analyze_body_unfold.
    destruct (decide _); [done|]. by rewrite Hgen.
  - intros text Hgen Hj. unfold analyze_with_gemini.
    rewrite analyze_body_unfold.
    destruct (decide _); [done|]. by rewrite Hgen, Hj.
Qed.

Lemma analyze_never_raises_witness :
  analyze_with_gemini malformed_world description_only (lit "Kimchi stew")
  = (JStr (lit "Kimchi stew"), lit "", []).
Proof.
  refine (proj2 (proj2 (analyze_never_raises malformed_world description_only
                          (lit "Kimchi stew")))
            (lit "Sorry, I cannot help with that.") _ _); reflexivity.
Defined.

Example answer_not_a_dict_raises :
  analyze_body (answering_world (json_text "'kimchi'")
                  (Some (JStr (lit "kimchi"))))
    description_only (lit "Kimchi stew") = Raise AttributeError.
Proof. by vm_compute. Qed.

Example ingredients_not_text_raises :
  analyze_body (answering_world (json_text "{'ingredients': 3}")
                  (Some (JDict {[ lit "ingredients" := JInt 3 ]})))
    description_only (lit "Kimchi stew") = Raise TypeError.
Proof. by vm_compute. Qed.

(** ** The item processor *)

Arguments lit : simpl never.

Lemma bind_run {A B} (m : M A) (k : A → M B) st :
  (m ≫= k) st =
  match m st with
  | (Ok a, st') => k a st'
  | (Raise e, st') => (Raise e, st')
  end.
Proof. reflexivity. Qed.

Lemma update_status_run w sid c t s v st :
  ∃ st', update_status w sid c t s v st = (Ok (), st')
         ∧ recipes st' = recipes st.
Proof. by eexists. Qed.

Ltac step_status :=
  rewrite bind_run;
  match goal with
  | |- context [update_status ?w ?sid ?c ?t ?s ?v ?st] =>
    let st' := fresh "st" in
    let E := fresh "E" in
    let K := fresh "Hkeep" in
    destruct (update_status_run w sid c t s v st) as (st' & E & K);
    rewrite E; clear E
  end.

(** Rewrites the store of a later state into that of an earlier one. *)
Ltac same_recipes :=
  repeat match goal with
         | H : recipes _ = recipes _ |- _ => rewrite H
         end.

Lemma insert_recipe_fresh w vid title description ingredients dish url
    srcs rows :
  check_if_video_exists vid rows = false →
  (∃ text,
     bind_parameter w dish = Ok text
     ∧ insert_recipe w vid title description ingredients dish url srcs rows
       = Ok (rows ++ [{| Recipe.video_id := vid;
                         Recipe.title := title;
                         Recipe.description := description;
                         Recipe.ingredients := ingredients;
                         Recipe.dish_name := text;
                         Recipe.url := url;
                         Recipe.data_sources := srcs |}]))
  ∨ ∃ e, insert_recipe w vid title description ingredients dish url srcs rows
         = Raise e.
Proof.
  intros Hex. unfold insert_recipe.
  destruct (bind_parameter w dish) as [text|e]; simpl.
  - rewrite Hex. left. by exists text.
  - right. by exists e.
Qed.

Lemma process_single_video_cases w vid sid i n st :
  ∃ o st',
    process_single_video w vid sid i n st = (Ok o, st')
    ∧ Outcome.video_id o = vid
    ∧ ((check_if_video_exists vid (recipes st) = true
        ∧ o = skipped vid ∧ recipes st' = recipes st)
       ∨ (check_if_video_exists vid (recipes st) = false
          ∧ Outcome.status o = lit "error" ∧ recipes st' = recipes st)
       ∨ (check_if_video_exists vid (recipes st) = false
          ∧ ∃ info,
              get_video_info w vid = Some info
              ∧ o = success vid (vi_title info)
                      (analyze_with_gemini w
                         (collected_data w vid (vi_description info))
                         (vi_title info)).1.1
                      (analyze_with_gemini w
                         (collected_data w vid (vi_description info))
                         (vi_title info)).2
              ∧ recipes st' = recipes st ++ [recipe_row w vid info])).
Proof.
  unfold process_single_video. rewrite bind_run. unfold get_recipes.
  destruct (check_if_video_exists vid (recipes st)) eqn:Hex.
  - step_status. eexists _, _. split; [reflexivity|]. split; [reflexivity|]. by left.
  - unfold try_except. step_status.
    destruct (get_video_info w vid) as [info|] eqn:Hinfo.
    + do 3 step_status.
      fold (collected_data w vid (vi_description info)).
      unfold recipe_row.
      destruct (analyze_with_gemini w _ (vi_title info))
        as [[dish ing] srcs] eqn:Ha; cbn [fst snd].
      rewrite bind_run. unfold execute_insert. same_recipes.
      match goal with
      | |- context [insert_recipe ?w ?a ?b ?c ?d ?e ?f ?g _] =>
        destruct (insert_recipe_fresh w a b c d e f g (recipes st))
          as [(text & Hbind & ->)|[e' ->]];
          [exact Hex| |]
      end.
      * step_status. eexists _, _. split; [reflexivity|]. split; [reflexivity|].
        right; right. split; [done|]. exists info. unfold recipe_row.
        rewrite Ha. cbn [fst snd]. rewrite Hbind. by same_recipes.
      * step_status. eexists _, _. split; [reflexivity|]. split; [reflexivity|].
        right; left. by same_recipes.
    + eexists _, _. split; [reflexivity|]. split; [done|]. right; left. done.
Qed.

Lemma check_if_video_exists_false vid rows :
  check_if_video_exists vid rows = false ↔ count_video vid rows = 0%nat.
Proof.
  unfold check_if_video_exists. rewrite bool_decide_eq_false. lia.
Qed.

Lemma count_video_snoc vid rows row :
  count_video vid (rows ++ [row])
  = (count_video vid rows
     + if decide (Recipe.video_id row = vid) then 1 else 0)%nat.
Proof.
  unfold count_video. rewrite filter_app, length_app. f_equal.
  rewrite filter_cons, filter_nil. by destruct (decide _).
Qed.

Lemma recipe_row_video_id w vid info :
  Recipe.video_id (recipe_row w vid info) = vid.
Proof. reflexivity. Qed.

(** C1, as the code has it. A call on an id already in the store is
    stopped by the idempotency gate: it inserts nothing and reports
    [skipped]. A call on an id absent from the store either reports
    [success], having inserted exactly one row for that id, or reports
    [error] (no metadata, or a stage raised), having inserted nothing.
    So two calls in a row on an absent id leave at most one row for it,
    and when the first one succeeds they leave exactly one and the second
    one reports [skipped]. *)
Theorem process_twice_at_most_one_row w1 w2 vid sid1 sid2 i1 i2 n1 n2 st :
  check_if_video_exists vid (recipes st) = false →
  (∀ w sid i n st0,
     check_if_video_exists vid (recipes st0) = true →
     ∃ st0', process_single_video w vid sid i n st0 = (Ok (skipped vid), st0')
             ∧ recipes st0' = recipes st0)
  ∧ (∀ w vid' sid i n st0,
       check_if_video_exists vid (recipes st0) = true →
       check_if_video_exists vid
         (recipes (process_single_video w vid' sid i n st0).2) = true)
  ∧ ∃ o1 st1 o2 st2,
    process_single_video w1 vid sid1 i1 n1 st = (Ok o1, st1)
    ∧ process_single_video w2 vid sid2 i2 n2 st1 = (Ok o2, st2)
    ∧ (Outcome.status o1 = lit "success" ∨ Outcome.status o1 = lit "error")
    ∧ (Outcome.status o1 = lit "success" →
       (∃ row, recipes st1 = recipes st ++ [row] ∧ Recipe.video_id row = vid)
       ∧ count_video vid (recipes st1) = 1%nat
       ∧ Outcome.status o2 = lit "skipped"
       ∧ recipes st2 = recipes st1)
    ∧ (Outcome.status o1 = lit "error" → recipes st1 = recipes st)
    ∧ (count_video vid (recipes st2) ≤ 1)%nat
    ∧ (check_if_video_exists vid (recipes st1) = true →
       Outcome.status o2 = lit "skipped" ∧ recipes st2 = recipes st1).
Proof.
  intros Hex. split; [|split].
  { intros w sid i n st0 Hin.
    destruct (process_single_video_cases w vid sid i n st0)
      as (o & st0' & E & _ & [(_ & -> & ?)|[(? & _)|(? & _)]]);
      [|congruence..].
    by exists st0'. }
  { intros w vid' sid i n st0 Hin.
    destruct (process_single_video_cases w vid' sid i n st0)
      as (o & st0' & -> & _ & C). cbn [snd].
    destruct C as [(_ & _ & ->)|[(_ & _ & ->)|(_ & info & _ & _ & ->)]];
      [done..|].
    apply bool_decide_eq_true. apply bool_decide_eq_true in Hin.
    rewrite count_video_snoc. lia. }
  destruct (process_single_video_cases w1 vid sid1 i1 n1 st)
    as (o1 & st1 & E1 & _ & C1).
  destruct (process_single_video_cases w2 vid sid2 i2 n2 st1)
    as (o2 & st2 & E2 & _ & C2).
  exists o1, st1, o2, st2. split; [done|]. split; [done|].
  assert (count_video vid (recipes st) = 0%nat) as Hzero
    by by apply check_if_video_exists_false.
  assert (check_if_video_exists vid (recipes st1) = true →
          Outcome.status o2 = lit "skipped" ∧ recipes st2 = recipes st1)
    as Hgate.
  { intros Hin. destruct C2 as [(_ & -> & ?)|[(? & _)|(? & _)]];
      [done|congruence..]. }
  destruct C1 as [(? & _)|[(_ & Herr & Hsame)|(_ & info & _ & -> & Hrows)]];
    [congruence| |].
  - (* the first call reports an error *)
    assert (lit "error" ≠ lit "success") as Hne by (vm_compute; discriminate).
    rewrite Herr. split_and!; [by right|by intros ?%Hne|done| |done].
    destruct C2 as [(_ & _ & ->)|[(_ & _ & ->)|(_ & info & _ & _ & ->)]];
      rewrite ?Hsame, ?count_video_snoc, ?recipe_row_video_id, ?Hzero;
      [lia..|]. rewrite decide_True by done. lia.
  - (* the first call succeeds *)
    assert (count_video vid (recipes st1) = 1%nat) as Hone.
    { rewrite Hrows, count_video_snoc, recipe_row_video_id, Hzero.
      by rewrite decide_True. }
    assert (check_if_video_exists vid (recipes st1) = true) as Hin.
    { unfold check_if_video_exists. apply bool_decide_eq_true. lia. }
    destruct (Hgate Hin) as [Hskip Hkeep].
    split_and!; [by left| | | |done].
    + intros _. split_and!; [|done..]. eauto using recipe_row_video_id.
    + intros Hbad. vm_compute in Hbad. discriminate.
    + rewrite Hkeep. lia.
Qed.

Lemma process_twice_at_most_one_row_witness :
  check_if_video_exists some_video (recipes empty_state) = false
  ∧ ∃ o1 st1 o2 st2,
      process_single_video wrapped_world some_video some_session 1 1
        empty_state = (Ok o1, st1)
      ∧ process_single_video wrapped_world some_video some_session 1 1 st1
        = (Ok o2, st2)
      ∧ (count_video some_video (recipes st2) ≤ 1)%nat.
Proof.
  split; [reflexivity|].
  destruct (process_twice_at_most_one_row wrapped_world wrapped_world
              some_video some_session some_session 1 1 1 1 empty_state
              eq_refl)
    as (_ & _ & o1 & st1 & o2 & st2 & E1 & E2 & _ & _ & _ & Hle & _).
  by exists o1, st1, o2, st2.
Defined.

(** C1 fails as stated: when the metadata of a video cannot be fetched,
    the first call on its id inserts no row, and the second call is not
    stopped by the gate: it reports [error] again. *)
Lemma absent_metadata_never_stored :
  let first := process_single_video silent_world some_video some_session
                 1 1 empty_state in
  let second := process_single_video silent_world some_video some_session
                  1 1 first.2 in
  check_if_video_exists some_video (recipes empty_state) = false
  ∧ Outcome.status <$> first.1 = Ok (lit "error")
  ∧ count_video some_video (recipes first.2) = 0%nat
  ∧ Outcome.status <$> second.1 = Ok (lit "error")
  ∧ count_video some_video (recipes second.2) = 0%nat.
Proof. vm_compute. done. Qed.

Example process_twice_success :
  let first := process_single_video wrapped_world some_video some_session
                 1 1 empty_state in
  let second := process_single_video wrapped_world some_video some_session
                  1 1 first.2 in
  Outcome.status <$> first.1 = Ok (lit "success")
  ∧ Outcome.status <$> second.1 = Ok (lit "skipped")
  ∧ (Recipe.ingredients <$> recipes second.2) = [lit "a,b"]
  ∧ (Recipe.data_sources <$> recipes second.2) = [lit "설명"].
Proof. vm_compute. done. Qed.

(** ** Sources *)

Lemma sources_of_available_subset data_dict :
  sources_of data_dict = available_subset data_dict.
Proof.
  unfold sources_of, available_subset, source_slots.
  rewrite !filter_cons, filter_nil. cbn [fst].
  destruct (slot_filled data_dict k_transcript),
           (slot_filled data_dict k_description),
           (slot_filled data_dict k_comments); reflexivity.
Qed.

Lemma analyze_sources w data_dict title :
  (analyze_with_gemini w data_dict title).2 = sources_of data_dict
  ∨ (analyze_with_gemini w data_dict title).2 = [].
Proof.
  unfold analyze_with_gemini.
  destruct (analyze_body w data_dict title) as [r|e] eqn:E.
  - rewrite analyze_body_unfold in E.
    destruct (decide _); [injection E as <-; by right|].
    destruct (generate_content w _); [|done].
    destruct (json_loads w _) as [data|]; [|done].
    destruct data as [| | | | |[|first rest]|];
      try (left; by eapply read_record_sources).
    injection E as <-. by right.
  - right. by destruct e.
Qed.

Lemma available_data_nil data_dict :
  available_data data_dict = [] ↔ available_subset data_dict = [].
Proof.
  unfold available_data, available_subset, source_slots.
  rewrite !filter_cons, filter_nil. cbn [fst].
  destruct (slot_filled data_dict k_transcript),
           (slot_filled data_dict k_description),
           (slot_filled data_dict k_comments); done.
Qed.

Lemma str_items_mapM l :
  str_items l = match mapM json_str l with
                | Some items => Ok items
                | None => Raise TypeError
                end.
Proof.
  induction l as [|v l IH]; [done|].
  destruct v; try done. cbn [str_items mapM json_str]. rewrite IH.
  unfold mbind, option_bind. cbn.
  by destruct (mapM json_str l).
Qed.

(** The record reader on a dict, case by case. *)
Lemma read_record_dict data_dict title fields :
  read_record data_dict title (JDict fields)
  = match ingredients_text (fields !! lit "ingredients") with
    | Some s =>
      Ok (default (JStr title) (fields !! lit "dish_name"),
          normalize_ingredients s, sources_of data_dict)
    | None => Raise TypeError
    end.
Proof.
  unfold read_record, dict_get, ingredients_text.
  cbn [mbind result_bind].
  destruct (fields !! lit "ingredients") as [[| | | |s|l|]|];
    cbn [default]; try done.
  unfold id. rewrite str_items_mapM.
  by destruct (mapM json_str l).
Qed.

Lemma read_record_not_dict data_dict title record :
  (∀ fields, record ≠ JDict fields) →
  read_record data_dict title record = Raise AttributeError.
Proof. intros H. destruct record; try done. by destruct (H d). Qed.

(** C8, as the code has it. The source list the extractor returns is
    computed from its input and not from the answer. When the answer is
    parsed and read as a record (a dict, or the first element of a list,
    whose [ingredients] is a text, a list of texts or absent), the list
    is exactly the labels of the slots that are filled in the input, in
    the order captions, description, comments, whatever the answer says.
    On every other path the list is empty: no slot filled, the service
    fails, the answer is not JSON, it is the empty list, or the record
    cannot be read. The stored [data_sources] is the comma-joined list
    the extractor returned, or ["없음"] for the empty list. *)
Theorem sources_from_input_slots w data_dict title :
  (∀ label, label ∈ available_subset data_dict ↔
     ∃ key, (key, label) ∈ source_slots
            ∧ slot_filled data_dict key = true)
  ∧ (available_subset data_dict = [] →
     analyze_with_gemini w data_dict title = (JStr title, [], []))
  ∧ (∀ text data fields s,
       available_subset data_dict ≠ [] →
       generate_content w (prompt_of data_dict title) = Some text →
       json_loads w (answer_of text) = Some data →
       record_of data = Some (JDict fields) →
       ingredients_text (fields !! lit "ingredients") = Some s →
       analyze_with_gemini w data_dict title
       = (default (JStr title) (fields !! lit "dish_name"),
          normalize_ingredients s,
          available_subset data_dict))
  ∧ (generate_content w (prompt_of data_dict title) = None →
     analyze_with_gemini w data_dict title = (JStr title, [], []))
  ∧ (∀ text,
       generate_content w (prompt_of data_dict title) = Some text →
       json_loads w (answer_of text) = None
       ∨ json_loads w (answer_of text) = Some (JList []) →
       analyze_with_gemini w data_dict title = (JStr title, [], []))
  ∧ (∀ text data record,
       generate_content w (prompt_of data_dict title) = Some text →
       json_loads w (answer_of text) = Some data →
       record_of data = Some record →
       (∀ fields, record = JDict fields →
                  ingredients_text (fields !! lit "ingredients") = None) →
       analyze_with_gemini w data_dict title = (JStr title, [], []))
  ∧ (∀ video_id session_id idx total st o st',
       process_single_video w video_id session_id idx total st = (Ok o, st') →
       Outcome.status o = lit "success" →
       ∃ info row,
         get_video_info w video_id = Some info
         ∧ recipes st' = recipes st ++ [row]
         ∧ Outcome.sources o
           = Some (analyze_with_gemini w
                     (collected_data w video_id (vi_description info))
                     (vi_title info)).2
         ∧ Recipe.data_sources row
           = sources_str_of
               (analyze_with_gemini w
                  (collected_data w video_id (vi_description info))
                  (vi_title info)).2)
  ∧ sources_str_of [] = lit "없음"
  ∧ (∀ s l, sources_str_of (s :: l) = join [comma] (s :: l)).
Proof.
  assert (∀ text data record,
            generate_content w (prompt_of data_dict title) = Some text →
            json_loads w (answer_of text) = Some data →
            record_of data = Some record →
            available_subset data_dict ≠ [] →
            analyze_body w data_dict title
            = read_record data_dict title record) as Hbody.
  { intros text data record Hgen Hjson Hrec Hsome.
    rewrite analyze_body_unfold, decide_False
      by by rewrite available_data_nil.
    rewrite Hgen, Hjson.
    destruct data as [| | | | |[|first rest]|]; cbn in Hrec;
      by simplify_eq. }
  assert (available_subset data_dict = [] →
          analyze_with_gemini w data_dict title = (JStr title, [], []))
    as Hnone.
  { intros Hnil. apply analyze_returns.
    by rewrite analyze_body_unfold, decide_True
      by by rewrite available_data_nil. }
  split_and!.
  - intros label. unfold available_subset.
    rewrite list_elem_of_fmap. split.
    + intros ([key l] & -> & [H1 H2]%list_elem_of_filter). by exists key.
    + intros (key & H1 & H2). exists (key, label).
      split; [done|]. by apply list_elem_of_filter.
  - exact Hnone.
  - intros text data fields s Hsome Hgen Hjson Hrec Hing.
    apply analyze_returns.
    rewrite (Hbody text data (JDict fields)) by done.
    by rewrite read_record_dict, Hing, sources_of_available_subset.
  - intros Hgen.
    destruct (decide (available_subset data_dict = [])); [by apply Hnone|].
    apply (analyze_handles _ _ _ ServiceError).
    rewrite analyze_body_unfold, decide_False
      by by rewrite available_data_nil.
    by rewrite Hgen.
  - intros text Hgen Hjson.
    destruct (decide (available_subset data_dict = [])); [by apply Hnone|].
    destruct Hjson as [Hjson|Hjson].
    + apply (analyze_handles _ _ _ JSONDecodeError).
      rewrite analyze_body_unfold, decide_False
        by by rewrite available_data_nil.
      by rewrite Hgen, Hjson.
    + apply analyze_returns.
      rewrite analyze_body_unfold, decide_False
        by by rewrite available_data_nil.
      by rewrite Hgen, Hjson.
  - intros text data record Hgen Hjson Hrec Hbad.
    destruct (decide (available_subset data_dict = [])); [by apply Hnone|].
    destruct (read_record data_dict title record) as [r|e] eqn:Hread.
    + exfalso. destruct record as [| | | | | |fields]; try done.
      rewrite read_record_dict, (Hbad fields eq_refl) in Hread. done.
    + apply (analyze_handles _ _ _ e).
      by rewrite (Hbody text data record).
  - intros video_id session_id idx total st o st' Hrun Hok.
    destruct (process_single_video_cases w video_id session_id idx total st)
      as (o' & st'' & E & _ & C).
    rewrite Hrun in E. injection E as <- <-.
    destruct C as [(_ & -> & _)|[(_ & Herr & _)|(_ & info & Hinfo & -> & Hrows)]].
    + vm_compute in Hok. discriminate.
    + rewrite Herr in Hok. vm_compute in Hok. discriminate.
    + by exists info, (recipe_row w video_id info).
  - done.
  - done.
Qed.

Lemma sources_from_input_slots_witness :
  analyze_with_gemini wrapped_world description_only (lit "Kimchi stew")
  = (JStr (lit "X"), lit "a,b", [src_description]).
Proof.
  destruct (sources_from_input_slots wrapped_world description_only
              (lit "Kimchi stew")) as (_ & _ & Hread & _).
  exact (Hread wrapped_text wrapped_record
           (<[lit "dish_name" := JStr (lit "X")]>
              (<[lit "ingredients" := JList [JStr (lit "a"); JStr (lit "b")]]>
                 ∅))
           (lit "a,b")
           ltac:(by vm_compute) eq_refl eq_refl eq_refl
           ltac:(by vm_compute)).
Defined.

(** C8 fails as stated: with the description slot filled and an answer
    that is not JSON, the extractor returns no source at all, and the row
    stored for the video holds ["없음"] instead of ["설명"]. *)
Lemma sources_lost_on_parse_failure :
  available_subset description_only = [src_description]
  ∧ (analyze_with_gemini malformed_world description_only
       (lit "Kimchi stew")).2 = []
  ∧ collected_data malformed_world some_video (lit "pork, kimchi")
    = description_only
  ∧ (Recipe.data_sources
     <$> recipes (process_single_video malformed_world some_video
                    some_session 1 1 empty_state).2)
    = [lit "없음"].
Proof. vm_compute. done. Qed.

(** ** The batch driver *)

Lemma process_each_run w sid total idx ids st :
  ∃ rs st',
    process_each w sid total idx ids st = (Ok rs, st')
    ∧ Outcome.video_id <$> rs = ids.
Proof.
  revert idx st. induction ids as [|vid ids IH]; intros idx st.
  - by exists [], st.
  - cbn [process_each]. rewrite bind_run.
    destruct (process_single_video_cases w vid sid idx total st)
      as (o & st1 & -> & Hvid & _).
    rewrite bind_run.
    destruct (IH (S idx) st1) as (rs & st2 & -> & Hrs).
    exists (o :: rs), st2. split; [reflexivity|].
    by rewrite fmap_cons, Hvid, Hrs.
Qed.

(** Processing [a ++ b] is processing [a], then [b] from the state [a]
    left behind. *)
Lemma process_each_app w sid total idx a b st :
  process_each w sid total idx (a ++ b) st =
  match process_each w sid total idx a st with
  | (Ok ra, st1) =>
    match process_each w sid total (idx + length a) b st1 with
    | (Ok rb, st2) => (Ok (ra ++ rb), st2)
    | (Raise e, st2) => (Raise e, st2)
    end
  | (Raise e, st1) => (Raise e, st1)
  end.
Proof.
  revert idx st. induction a as [|vid a IH]; intros idx st.
  - cbn [app process_each length]. rewrite Nat.add_0_r.
    unfold mret, M_ret.
    by destruct (process_each w sid total idx b st) as [[rb|e] st2].
  - cbn [app process_each length]. rewrite !bind_run.
    destruct (process_single_video w vid sid idx total st) as [[o|e] st1];
      [|done].
    rewrite !bind_run, IH.
    destruct (process_each w sid total (S idx) a st1) as [[ra|e] st2];
      [|done].
    replace (idx + S (length a))%nat with (S idx + length a)%nat by lia.
    unfold mret, M_ret. cbv beta iota.
    by destruct (process_each w sid total (S idx + length a) b st2)
      as [[rb|e] st3].
Qed.

(** ** The status map *)

(** C10. For a run id that is not in the status map, reading the status
    gives the default record: current 0, total 0, percentage 0, the
    text ["준비 중..."], an empty video title and completed false. *)
Theorem get_status_unknown_run (st : State) (session_id : str) :
  processing_status st !! session_id = None →
  get_status st session_id = default_status
  ∧ RunStatus.current (get_status st session_id) = 0%nat
  ∧ RunStatus.total (get_status st session_id) = 0%nat
  ∧ RunStatus.percentage (get_status st session_id) = 0%Z
  ∧ RunStatus.status (get_status st session_id) = lit "준비 중..."
  ∧ RunStatus.video_title (get_status st session_id) = lit ""
  ∧ RunStatus.completed (get_status st session_id) = Some false.
Proof. unfold get_status. intros ->. done. Qed.

Lemma get_status_unknown_run_witness :
  get_status empty_state some_session = default_status.
Proof.
  exact (proj1 (get_status_unknown_run empty_state some_session eq_refl)).
Defined.

(** ** The pattern matcher of LIKE *)

Lemma pattern_compare_percent_unfold p s :
  pattern_compare (percent :: p) s
  = pattern_compare p s
    || match s with
       | [] => false
       | _ :: s' => pattern_compare (percent :: p) s'
       end.
Proof. by destruct s. Qed.

Lemma pattern_compare_cons_unfold c p s :
  c ≠ percent →
  pattern_compare (c :: p) s
  = match s with
    | [] => false
    | d :: s' =>
      ((c =? underscore) || (tolower c =? tolower d))
      && pattern_compare p s'
    end.
Proof.
  intros Hc. cbn [pattern_compare]. destruct (N.eqb_spec c percent); [done|].
  by destruct s.
Qed.

Lemma pattern_compare_percent p s :
  pattern_compare (percent :: p) s = true
  ↔ ∃ pre post, s = pre ++ post ∧ pattern_compare p post = true.
Proof.
  induction s as [|d s IH];
    rewrite pattern_compare_percent_unfold, orb_true_iff.
  - split.
    + intros [H|H]; [|done]. by exists [], [].
    + intros (pre & post & Hs & H). symmetry in Hs.
      apply app_eq_nil in Hs as [-> ->]. by left.
  - rewrite IH. split.
    + intros [H|(pre & post & -> & H)].
      * by exists [], (d :: s).
      * by exists (d :: pre), post.
    + intros ([|e pre] & post & Hs & H).
      * left. by rewrite Hs.
      * right. injection Hs as -> ->. by exists pre, post.
Qed.

Lemma pattern_compare_percent_only s : pattern_compare [percent] s = true.
Proof. apply pattern_compare_percent. exists s, []. by rewrite app_nil_r. Qed.

(** A pattern matches itself, wildcards included. *)
Lemma pattern_compare_self tok p rest :
  pattern_compare p rest = true →
  pattern_compare (tok ++ p) (tok ++ rest) = true.
Proof.
  intros H. induction tok as [|c tok IH]; [done|].
  cbn [app]. destruct (decide (c = percent)) as [->|Hc].
  - apply pattern_compare_percent. by exists [percent], (tok ++ rest).
  - rewrite pattern_compare_cons_unfold by done. rewrite IH, N.eqb_refl.
    by rewrite orb_true_r.
Qed.



Lemma pattern_compare_contains tok s :
  substring tok s → pattern_compare ([percent] ++ tok ++ [percent]) s = true.
Proof.
  intros (pre & post & ->). apply pattern_compare_percent.
  exists pre, (tok ++ post). split; [done|].
  apply pattern_compare_self, pattern_compare_percent_only.
Qed.


(** ** LIKE on texts that may hold U+0000 *)

Lemma c_str_free s : 0 ∉ s → c_str s = s.
Proof.
  induction s as [|c s IH]; [done|].
  intros [Hc Hs]%not_elem_of_cons. cbn [c_str].
  destruct (N.eqb_spec c 0) as [->|_]; [done|]. by rewrite IH.
Qed.

Lemma c_str_no_nul s : 0 ∉ c_str s.
Proof.
  induction s as [|c s IH]; cbn [c_str]; [apply not_elem_of_nil|].
  destruct (N.eqb_spec c 0) as [_|Hc]; [apply not_elem_of_nil|].
  apply not_elem_of_cons. split; [done|exact IH].
Qed.

Lemma c_str_prefix s : c_str s `prefix_of` s.
Proof.
  induction s as [|c s IH]; cbn [c_str]; [done|].
  destruct (c =? 0); [apply prefix_nil|]. by apply prefix_cons.
Qed.

Lemma substring_no_nul tok s : substring tok (c_str s) → 0 ∉ tok.
Proof.
  intros (pre & post & E) Hin. apply (c_str_no_nul s).
  rewrite E, !elem_of_app. auto.
Qed.

Lemma c_str_pattern tok :
  0 ∉ tok →
  c_str ([percent] ++ tok ++ [percent]) = [percent] ++ tok ++ [percent].
Proof.
  intros Htok. apply c_str_free. cbn [app].
  rewrite not_elem_of_cons, not_elem_of_app, not_elem_of_cons.
  split_and!; [done|done|done|apply not_elem_of_nil].
Qed.

Lemma like_contains_substring tok s :
  substring tok (c_str s) → like ([percent] ++ tok ++ [percent]) s = true.
Proof.
  intros Hsub. unfold like.
  rewrite c_str_pattern by by eapply substring_no_nul.
  by apply pattern_compare_contains.
Qed.


(** ** The candidate query *)

Lemma utf8_length_app s t :
  utf8_length (s ++ t) = utf8_length s + utf8_length t.
Proof.
  unfold utf8_length. induction s as [|c s IH]; [done|].
  cbn [app foldr]. rewrite IH. lia.
Qed.

Lemma utf8_length_pattern tok :
  utf8_length ([percent] ++ tok ++ [percent]) = utf8_length tok + 2.
Proof.
  rewrite !utf8_length_app.
  change (utf8_length [percent]) with 1. lia.
Qed.

(** One row: the terms either run into a pattern over the limit, or tell
    whether some pattern matches. *)
Lemma where_any_shape values s :
  where_any values s = Raise OperationalError
  ∨ ∃ b, where_any values s = Ok b
         ∧ (b = true ↔ Exists (λ v, like v s = true) values).
Proof.
  induction values as [|v values IH]; cbn [where_any].
  - right. exists false. split; [done|].
    split; [done|]. by intros ?%Exists_nil.
  - unfold like_function.
    destruct (SQLITE_MAX_LIKE_PATTERN_LENGTH <? utf8_length v);
      [by left|].
    cbn. destruct (like v s) eqn:Hv.
    + right. exists true. split; [done|]. split; [|done].
      intros _. by apply Exists_cons_hd.
    + destruct IH as [->|(b & -> & Hb)]; [by left|].
      right. exists b. split; [done|]. rewrite Exists_cons, Hb.
      split; [by right|]. intros [?|?]; [congruence|done].
Qed.

Lemma where_any_ok values s :
  Forall (λ v, utf8_length v ≤ SQLITE_MAX_LIKE_PATTERN_LENGTH) values →
  ∃ b, where_any values s = Ok b
       ∧ (b = true ↔ Exists (λ v, like v s = true) values).
Proof.
  intros Hlim. destruct (where_any_shape values s) as [E|H]; [|done].
  exfalso. induction Hlim as [|v values Hv _ IH]; [done|].
  cbn [where_any] in E. unfold like_function in E.
  apply N.ltb_ge in Hv. rewrite Hv in E. cbn in E.
  destruct (like v s); [done|]. by apply IH.
Qed.


Lemma scan_shape values rows :
  scan values rows = Raise OperationalError
  ∨ scan values rows
    = Ok (filter
            (λ r, Exists (λ v, like v (Recipe.ingredients r) = true) values)
            rows).
Proof.
  induction rows as [|r rows IH]; cbn [scan]; [by right|].
  destruct (where_any_shape values (Recipe.ingredients r))
    as [->|(b & -> & Hb)]; [by left|].
  destruct IH as [-> | ->]; [by left|]. right.
  rewrite filter_cons.
  destruct (decide _) as [H|H]; destruct b; try reflexivity.
  - by apply Hb in H.
  - exfalso. by apply H, Hb.
Qed.

Lemma scan_ok values rows :
  Forall (λ v, utf8_length v ≤ SQLITE_MAX_LIKE_PATTERN_LENGTH) values →
  scan values rows
  = Ok (filter
          (λ r, Exists (λ v, like v (Recipe.ingredients r) = true) values)
          rows).
Proof.
  intros Hlim. destruct (scan_shape values rows) as [E|E]; [|done].
  exfalso. induction rows as [|r rows IH]; [done|].
  cbn [scan] in E.
  destruct (where_any_ok values (Recipe.ingredients r) Hlim)
    as (b & Hb & _).
  rewrite Hb in E. cbn in E.
  destruct (scan values rows); [done|]. by apply IH.
Qed.


(** Binding the values: all go through, or the first that is too long
    raises. *)
Lemma bind_all_ok values :
  Forall (λ v, utf8_length v ≤ SQLITE_MAX_LENGTH) values →
  bind_all values = Ok ().
Proof.
  induction 1 as [|v values Hv _ IH]; [done|].
  cbn [bind_all]. unfold bind_text.
  assert ((INT_MAX <? utf8_length v) = false) as ->.
  { apply N.ltb_ge. unfold INT_MAX, SQLITE_MAX_LENGTH in *. lia. }
  assert ((SQLITE_MAX_LENGTH <? utf8_length v) = false) as ->
    by by apply N.ltb_ge.
  exact IH.
Qed.



Lemma join_cons_nonempty (sep x : str) (l : list str) :
  x ≠ [] → join sep (x :: l) ≠ [].
Proof.
  intros Hx. cbn [join]. destruct l; [done|].
  intros [? _]%app_eq_nil. done.
Qed.

Lemma iter_length (order : set_iteration) (user : gset str) :
  length (iter order user) = size user.
Proof. by rewrite (iter_perm order user). Qed.

Lemma iter_elem_of (order : set_iteration) (user : gset str) tok :
  tok ∈ iter order user ↔ tok ∈ user.
Proof. by rewrite (iter_perm order user), elem_of_elements. Qed.

(** The statement sent to the database, once the set is not empty and
    the chain of terms is not too deep: the values are bound and the
    table is scanned. *)
Lemma fetch_candidates_bind (order : set_iteration) (user : gset str) rows :
  user ≠ ∅ →
  (size user < SQLITE_MAX_EXPR_DEPTH)%nat →
  fetch_candidates order user rows
  = (_ ← bind_all ((λ ing, [percent] ++ ing ++ [percent])
                     <$> iter order user);
     scan ((λ ing, [percent] ++ ing ++ [percent]) <$> iter order user)
       rows).
Proof.
  intros Hne Hsize. unfold fetch_candidates, select_where.
  rewrite length_fmap, iter_length.
  destruct (iter order user) as [|tok toks] eqn:E.
  { exfalso. apply Hne, leibniz_equiv, size_empty_inv.
    by rewrite <- (iter_length order), E. }
  rewrite decide_False.
  - destruct (Nat.ltb_spec SQLITE_MAX_EXPR_DEPTH (size user + 1)); [lia|done].
  - rewrite fmap_cons. apply join_cons_nonempty. by vm_compute.
Qed.

Lemma patterns_bindable (order : set_iteration) (user : gset str) :
  (∀ tok, tok ∈ user → utf8_length tok + 2 ≤ SQLITE_MAX_LENGTH) →
  Forall (λ v, utf8_length v ≤ SQLITE_MAX_LENGTH)
    ((λ ing, [percent] ++ ing ++ [percent]) <$> iter order user).
Proof.
  intros Hlim. apply Forall_fmap, Forall_forall. intros tok Htok.
  change (utf8_length ([percent] ++ tok ++ [percent]) ≤ SQLITE_MAX_LENGTH).
  rewrite utf8_length_pattern. by apply Hlim, (iter_elem_of order).
Qed.

Lemma fetch_candidates_scan (order : set_iteration) (user : gset str) rows :
  user ≠ ∅ →
  (size user < SQLITE_MAX_EXPR_DEPTH)%nat →
  (∀ tok, tok ∈ user → utf8_length tok + 2 ≤ SQLITE_MAX_LENGTH) →
  fetch_candidates order user rows
  = scan ((λ ing, [percent] ++ ing ++ [percent]) <$> iter order user) rows.
Proof.
  intros Hne Hsize Hlen. rewrite fetch_candidates_bind by done.
  by rewrite bind_all_ok by by apply patterns_bindable.
Qed.

Lemma pattern_limit_bindable (user : gset str) :
  (∀ tok, tok ∈ user →
          utf8_length tok + 2 ≤ SQLITE_MAX_LIKE_PATTERN_LENGTH) →
  ∀ tok, tok ∈ user → utf8_length tok + 2 ≤ SQLITE_MAX_LENGTH.
Proof.
  intros Hlim tok Htok. specialize (Hlim tok Htok).
  unfold SQLITE_MAX_LIKE_PATTERN_LENGTH, SQLITE_MAX_LENGTH in *. lia.
Qed.

Lemma fetch_candidates_empty (order : set_iteration) rows :
  fetch_candidates order ∅ rows = Raise OperationalError.
Proof.
  unfold fetch_candidates, select_where.
  assert (iter order ∅ = []) as ->; [|done].
  apply length_zero_iff_nil. by rewrite iter_length, size_empty.
Qed.

Lemma fetch_candidates_too_many (order : set_iteration) (user : gset str)
    rows :
  (SQLITE_MAX_EXPR_DEPTH ≤ size user)%nat →
  fetch_candidates order user rows = Raise OperationalError.
Proof.
  intros Hsize. unfold fetch_candidates, select_where.
  destruct (decide _); [done|].
  rewrite length_fmap, iter_length.
  by destruct (Nat.ltb_spec SQLITE_MAX_EXPR_DEPTH (size user + 1)); [|lia].
Qed.

Lemma exists_like_iff (order : set_iteration) (user : gset str) s :
  Exists (λ v, like v s = true)
    ((λ ing, [percent] ++ ing ++ [percent]) <$> iter order user)
  ↔ ∃ tok, tok ∈ user ∧ like ([percent] ++ tok ++ [percent]) s = true.
Proof.
  rewrite Exists_exists. split.
  - intros (v & (tok & -> & Htok)%list_elem_of_fmap & H).
    exists tok. by rewrite <- (iter_elem_of order).
  - intros (tok & Htok & H). exists ([percent] ++ tok ++ [percent]).
    split; [|done]. apply list_elem_of_fmap. exists tok.
    by rewrite iter_elem_of.
Qed.

Lemma patterns_within_limit (order : set_iteration) (user : gset str) :
  (∀ tok, tok ∈ user →
          utf8_length tok + 2 ≤ SQLITE_MAX_LIKE_PATTERN_LENGTH) →
  Forall (λ v, utf8_length v ≤ SQLITE_MAX_LIKE_PATTERN_LENGTH)
    ((λ ing, [percent] ++ ing ++ [percent]) <$> iter order user).
Proof.
  intros Hlim. apply Forall_fmap, Forall_forall. intros tok Htok.
  change (utf8_length ([percent] ++ tok ++ [percent])
          ≤ SQLITE_MAX_LIKE_PATTERN_LENGTH).
  rewrite utf8_length_pattern. by apply Hlim, (iter_elem_of order).
Qed.


Lemma parse_ingredients_spec text tok :
  tok ∈ parse_ingredients text
  ↔ ∃ piece, piece ∈ split comma text ∧ tok = strip piece ∧ tok ≠ [].
Proof.
  unfold parse_ingredients.
  rewrite elem_of_list_to_set, list_elem_of_fmap.
  split.
  - intros (piece & -> & [H1 H2]%list_elem_of_filter). by exists piece.
  - intros (piece & H1 & -> & H2). exists piece.
    split; [done|]. by apply list_elem_of_filter.
Qed.





(** ** Sorting *)

Section Sorting.
Context {A : Type} (key : A → Z).

Lemma insert_desc_perm x l : insert_desc key x l ≡ₚ x :: l.
Proof.
  induction l as [|y l IH]; cbn [insert_desc]; [done|].
  destruct (key y <=? key x)%Z; [done|].
  by rewrite IH, Permutation_swap.
Qed.

Lemma sort_desc_perm l : sort_desc key l ≡ₚ l.
Proof.
  induction l as [|x l IH]; [done|].
  unfold sort_desc in *. cbn [foldr]. by rewrite insert_desc_perm, IH.
Qed.

Lemma insert_desc_sorted x l :
  StronglySorted (descending key) l →
  StronglySorted (descending key) (insert_desc key x l).
Proof.
  induction 1 as [|y l Hl IH Hy]; cbn [insert_desc].
  - repeat constructor.
  - destruct (Z.leb_spec (key y) (key x)) as [Hle|Hgt].
    + constructor; [by constructor|].
      constructor; [done|].
      eapply Forall_impl; [exact Hy|]. unfold descending. intros z Hz. lia.
    + constructor; [done|].
      rewrite insert_desc_perm. constructor; [|done]. unfold descending. lia.
Qed.

Lemma sort_desc_sorted l : StronglySorted (descending key) (sort_desc key l).
Proof.
  induction l as [|x l IH]; [constructor|].
  by apply insert_desc_sorted.
Qed.

(** Elements with the same key keep their order. *)
Lemma insert_desc_stable k x l :
  filter (λ y, key y = k) (insert_desc key x l)
  = filter (λ y, key y = k) (x :: l).
Proof.
  induction l as [|y l IH]; cbn [insert_desc]; [done|].
  destruct (Z.leb_spec (key y) (key x)) as [Hle|Hgt]; [done|].
  rewrite (filter_cons _ y), IH, !filter_cons.
  destruct (decide (key y = k)), (decide (key x = k)); try done. lia.
Qed.

Lemma sort_desc_stable k l :
  filter (λ y, key y = k) (sort_desc key l) = filter (λ y, key y = k) l.
Proof.
  induction l as [|x l IH]; [done|].
  unfold sort_desc in *. cbn [foldr].
  by rewrite insert_desc_stable, !filter_cons, IH.
Qed.
End Sorting.

(** ** The recommendation matcher *)

Lemma recommend_recipe_unfold (order : set_iteration) rows input :
  recommend_recipe order rows input =
  if decide (input = []) then Ok (Message (lit "재료를 입력해주세요."))
  else
    match fetch_candidates order (parse_ingredients input) rows with
    | Raise e => Raise e
    | Ok results =>
      if decide (results = []) then
        Ok (Message
              (lit "해당 재료로 만들 수 있는 레시피를 찾을 수 없습니다."))
      else
        Ok (Recipes
              (sort_desc RecipeView.match_rate
                 (view (parse_ingredients input) <$> results))
              input)
    end.
Proof.
  unfold recommend_recipe. destruct (decide _); [done|].
  by destruct (fetch_candidates _ _ rows).
Qed.

(** Within SQLite's limits the order in which the set of tokens is
    iterated does not show. *)
Lemma fetch_candidates_any_order (order order' : set_iteration)
    (user : gset str) rows :
  (∀ tok, tok ∈ user →
          utf8_length tok + 2 ≤ SQLITE_MAX_LIKE_PATTERN_LENGTH) →
  fetch_candidates order user rows = fetch_candidates order' user rows.
Proof.
  intros Hlim.
  destruct (decide (user = ∅)) as [->|Hne].
  { by rewrite !fetch_candidates_empty. }
  destruct (Nat.lt_ge_cases (size user) SQLITE_MAX_EXPR_DEPTH)
    as [Hsize|Hsize]; [|by rewrite !fetch_candidates_too_many].
  rewrite !fetch_candidates_scan by by try apply pattern_limit_bindable.
  rewrite !scan_ok by by apply patterns_within_limit.
  f_equal. apply list_filter_iff. intros r.
  by rewrite !exists_like_iff.
Qed.

Lemma recommend_recipe_any_order (order order' : set_iteration) rows input :
  (∀ tok, tok ∈ parse_ingredients input →
          utf8_length tok + 2 ≤ SQLITE_MAX_LIKE_PATTERN_LENGTH) →
  recommend_recipe order rows input = recommend_recipe order' rows input.
Proof.
  intros Hlim. rewrite !recommend_recipe_unfold.
  by rewrite (fetch_candidates_any_order order order').
Qed.

(** A way to check the limit on the tokens of a given set. *)
Lemma tokens_within_limit (user : gset str) :
  forallb (λ tok, utf8_length tok + 2 <=? SQLITE_MAX_LIKE_PATTERN_LENGTH)
    (elements user) = true →
  ∀ tok, tok ∈ user →
         utf8_length tok + 2 ≤ SQLITE_MAX_LIKE_PATTERN_LENGTH.
Proof.
  intros H tok Htok. apply elem_of_elements in Htok.
  rewrite forallb_forall in H.
  by apply N.leb_le, H, list_elem_of_In.
Qed.

(** C2 does not hold of the code: the guard of [recommend_recipe] tests
    the raw text only. The empty text gets the message, but a text of
    commas and blanks parses to the empty set, the statement sent to the
    database ends after [WHERE], and the exception it raises is not
    caught. *)
Theorem blank_query_raises (order : set_iteration) (rows : list Recipe.t) :
  recommend_recipe order rows (lit "")
  = Ok (Message (lit "재료를 입력해주세요."))
  ∧ parse_ingredients (lit ",, ,") = ∅
  ∧ recommend_recipe order rows (lit ",, ,") = Raise OperationalError
  ∧ (∀ text, text ≠ [] → parse_ingredients text = ∅ →
             recommend_recipe order rows text = Raise OperationalError).
Proof.
  assert (∀ text, text ≠ [] → parse_ingredients text = ∅ →
                  recommend_recipe order rows text = Raise OperationalError)
    as H.
  { intros text Hne Hparse. rewrite recommend_recipe_unfold.
    rewrite decide_False by done.
    by rewrite Hparse, fetch_candidates_empty. }
  split_and!; [done|by vm_compute| |done].
  apply H; by vm_compute.
Qed.

(** C3, as the code has it. With a non-empty token set and at least one
    candidate, the page lists every candidate once, each with the rate
    [|user ∩ recipe| / |recipe| * 100] (0 for an empty recipe set)
    formatted to one decimal; the list is in descending order of the
    formatted rate, and candidates whose formatted rates are equal keep
    the scan order of the store. For R1 = {a,b,c}, R2 = {a,b} and the
    user set {a,b}, both are listed and R2 (100.0) comes before R1
    (66.7). *)
Theorem ranking_by_formatted_rate :
  (∀ (order : set_iteration) (rows : list Recipe.t) (input : str)
     (results : list Recipe.t),
     input ≠ [] →
     fetch_candidates order (parse_ingredients input) rows = Ok results →
     results ≠ [] →
     let user := parse_ingredients input in
     ∃ recipes,
       recommend_recipe order rows input = Ok (Recipes recipes input)
       ∧ recipes ≡ₚ view user <$> results
       ∧ StronglySorted (descending RecipeView.match_rate) recipes
       ∧ (∀ k, filter (λ v, RecipeView.match_rate v = k) recipes
               = filter (λ v, RecipeView.match_rate v = k)
                   (view user <$> results))
       ∧ (∀ row, RecipeView.match_rate (view user row)
                 = format_1f (row_match_rate user row)))
  ∧ (∀ matched recipe_ings : gset str,
       match_rate matched recipe_ings
       = if decide (recipe_ings = ∅) then 0%float
         else (float_of_nat (size matched) / float_of_nat (size recipe_ings)
               * 100)%float)
  ∧ (∀ order : set_iteration,
     ∃ v1 v2,
       recommend_recipe order [R1; R2] (lit "a,b")
       = Ok (Recipes [v2; v1] (lit "a,b"))
       ∧ v1 = view (parse_ingredients (lit "a,b")) R1
       ∧ v2 = view (parse_ingredients (lit "a,b")) R2
       ∧ RecipeView.match_rate v1 = 667%Z
       ∧ RecipeView.match_rate v2 = 1000%Z).
Proof.
  split_and!.
  - intros order rows input results Hne Hfetch Hres user.
    exists (sort_desc RecipeView.match_rate (view user <$> results)).
    split_and!.
    + rewrite recommend_recipe_unfold, decide_False by done.
      unfold user. rewrite Hfetch. by rewrite decide_False.
    + apply sort_desc_perm.
    + apply sort_desc_sorted.
    + intros k. apply sort_desc_stable.
    + done.
  - intros matched recipe_ings. unfold match_rate.
    by destruct (decide _).
  - intros order.
    rewrite (recommend_recipe_any_order order elements_order)
      by by apply tokens_within_limit.
    eexists _, _. split_and!; [|reflexivity|reflexivity|..]; by vm_compute.
Qed.

Lemma ranking_by_formatted_rate_witness :
  ∃ recipes,
    recommend_recipe elements_order [R1; R2] (lit "a,b")
    = Ok (Recipes recipes (lit "a,b"))
    ∧ recipes ≡ₚ view (parse_ingredients (lit "a,b")) <$> [R1; R2]
    ∧ StronglySorted (descending RecipeView.match_rate) recipes.
Proof.
  destruct (proj1 ranking_by_formatted_rate elements_order [R1; R2]
              (lit "a,b") [R1; R2])
    as (recipes & E & Hperm & Hsorted & _).
  - vm_compute. discriminate.
  - vm_compute. reflexivity.
  - discriminate.
  - exists recipes. split; [exact E|]. split; [exact Hperm|exact Hsorted].
Defined.

(** C3 fails as stated: [big51] holds the user's one ingredient among 51
    and [big50] among 50, so the rate of [big51] is the smaller one; both
    are formatted as 2.0 and [big51], scanned first, is listed first. *)
Lemma equal_formatted_rates_keep_scan_order :
  let user := parse_ingredients (lit "a") in
  (size (user ∩ parse_ingredients (Recipe.ingredients big51)),
   size (parse_ingredients (Recipe.ingredients big51))) = (1, 51)%nat
  ∧ (size (user ∩ parse_ingredients (Recipe.ingredients big50)),
     size (parse_ingredients (Recipe.ingredients big50))) = (1, 50)%nat
  ∧ PrimFloat.ltb (row_match_rate user big51) (row_match_rate user big50)
    = true
  ∧ format_1f (row_match_rate user big51) = 20%Z
  ∧ format_1f (row_match_rate user big50) = 20%Z
  ∧ recommend_recipe elements_order [big51; big50] (lit "a")
    = Ok (Recipes [view user big51; view user big50] (lit "a")).
Proof. by vm_compute. Qed.

(** * Further properties *)

(** ** The playlist form *)

Lemma strip_prefix_Some p s r : strip_prefix p s = Some r ↔ s = p ++ r.
Proof.
  revert s. induction p as [|a p IH]; intros s; cbn [strip_prefix app].
  - split; [by intros [= ->]|by intros ->].
  - destruct s as [|b s]; [done|].
    destruct (N.eqb_spec a b) as [->|Hab].
    + rewrite IH. split; [by intros ->|by intros [= ->]].
    + split; [done|]. by intros [= -> ->].
Qed.

Lemma take_while_prefix p s :
  ∃ post, s = take_while p s ++ post
          ∧ ∀ c, head post = Some c → p c = false.
Proof.
  induction s as [|c s (post & Hs & Hpost)]; cbn [take_while].
  - by exists [].
  - destruct (p c) eqn:Hc.
    + exists post. by rewrite <- app_comm_cons, <- Hs.
    + exists (c :: s). split; [done|]. by intros ? [= <-].
Qed.

Lemma take_while_Forall p s : Forall (λ c, p c = true) (take_while p s).
Proof.
  induction s as [|c s IH]; cbn [take_while]; [constructor|].
  destruct (p c) eqn:Hc; by constructor.
Qed.

Lemma take_while_app_all p s post :
  Forall (λ c, p c = true) s →
  (∀ c, head post = Some c → p c = false) →
  take_while p (s ++ post) = s.
Proof.
  intros Hs Hpost. induction Hs as [|c s Hc _ IH]; cbn [app take_while].
  - destruct post as [|c post]; [done|]. cbn [take_while].
    by rewrite (Hpost c).
  - by rewrite Hc, IH.
Qed.

Lemma search_list_id_Some url pid :
  search_list_id url = Some pid →
  pid ≠ []
  ∧ Forall (λ c, is_id_char c = true) pid
  ∧ ∃ pre post, url = pre ++ lit "list=" ++ pid ++ post
                ∧ ∀ c, head post = Some c → is_id_char c = false.
Proof.
  induction url as [|a url IH]; [done|].
  cbn [search_list_id].
  assert (search_list_id url = Some pid →
          pid ≠ []
          ∧ Forall (λ c, is_id_char c = true) pid
          ∧ ∃ pre post, a :: url = pre ++ lit "list=" ++ pid ++ post
                        ∧ ∀ c, head post = Some c → is_id_char c = false)
    as Hnext.
  { intros (? & ? & pre & post & -> & ?)%IH. split_and!; [done..|].
    by exists (a :: pre), post. }
  destruct (strip_prefix (lit "list=") (a :: url)) as [rest|] eqn:E;
    [|done].
  destruct (take_while is_id_char rest) as [|c group] eqn:Et; [done|].
  intros [= <-]. apply strip_prefix_Some in E.
  destruct (take_while_prefix is_id_char rest) as (post & Hrest & Hpost).
  split_and!; [done| |].
  - rewrite <- Et. apply take_while_Forall.
  - exists [], post. rewrite Et in Hrest. by rewrite E, Hrest.
Qed.


(** [list=] does not start inside a text that does not hold it, even
    when the text is followed by [list=]. *)
Lemma no_early_list a pre tail rest :
  ¬ substring (lit "list=") (a :: pre) →
  strip_prefix (lit "list=") (a :: pre ++ lit "list=" ++ tail) = Some rest →
  False.
Proof.
  intros Hno E. apply strip_prefix_Some in E.
  destruct pre as [|b [|c [|d [|e pre]]]];
    vm_compute (lit "list=") in *; simplify_eq/=.
  apply Hno. by exists [], pre.
Qed.

Lemma search_list_id_skip pre pid post :
  ¬ substring (lit "list=") pre →
  search_list_id (pre ++ lit "list=" ++ pid ++ post)
  = search_list_id (lit "list=" ++ pid ++ post).
Proof.
  induction pre as [|a pre IH]; intros Hno; [done|].
  cbn [app search_list_id].
  destruct (strip_prefix _ _) as [rest|] eqn:E.
  - exfalso. by eapply (no_early_list a pre (pid ++ post)).
  - apply IH. intros (p1 & p2 & ->). apply Hno.
    by exists (a :: p1), p2.
Qed.

Lemma is_substring_spec t s : is_substring t s = true ↔ substring t s.
Proof.
  induction s as [|a s IH]; cbn [is_substring].
  - destruct (strip_prefix t []) as [r|] eqn:E.
    + apply strip_prefix_Some in E. split; [|done].
      intros _. by exists [], r.
    + split; [done|]. intros (pre & post & H).
      symmetry in H. apply app_eq_nil in H as [-> H].
      by rewrite (proj2 (strip_prefix_Some t [] post)) in E.
  - destruct (strip_prefix t (a :: s)) as [r|] eqn:E.
    + apply strip_prefix_Some in E. split; [|done].
      intros _. by exists [], r.
    + rewrite IH. split.
      * intros (pre & post & ->). by exists (a :: pre), post.
      * intros ([|b pre] & post & H).
        -- by rewrite (proj2 (strip_prefix_Some t (a :: s) post)) in E.
        -- injection H as -> ->. by exists pre, post.
Qed.

(** X1. When the playlist form is answered with a redirect, the session
    id is the fresh one and the playlist id is a non-empty run of
    characters of [[a-zA-Z0-9_-]] that stands in the submitted address
    right after [list=] and is not followed by another such character. *)
Theorem process_playlist_redirect_sound playlist_url fresh_id pid sid :
  process_playlist playlist_url fresh_id = RedirectToProcessing pid sid →
  sid = fresh_id
  ∧ pid ≠ []
  ∧ Forall (λ c, is_id_char c = true) pid
  ∧ ∃ url pre post,
      playlist_url = Some url
      ∧ url = pre ++ lit "list=" ++ pid ++ post
      ∧ ∀ c, head post = Some c → is_id_char c = false.
Proof.
  unfold process_playlist. destruct playlist_url as [[|a url]|]; [done| |done].
  destruct (search_list_id (a :: url)) as [found|] eqn:E; [|done].
  intros [= <- <-].
  apply search_list_id_Some in E as (Hne & Hall & pre & post & Hurl & Hpost).
  split_and!; [done..|]. by exists (a :: url), pre, post.
Qed.

Lemma process_playlist_redirect_sound_witness :
  ∃ url pre post,
    Some (playlist_url_prefix ++ lit "list=PLx7-_Q&index=2") = Some url
    ∧ url = pre ++ lit "list=" ++ lit "PLx7-_Q" ++ post.
Proof.
  destruct (process_playlist_redirect_sound
              (Some (playlist_url_prefix ++ lit "list=PLx7-_Q&index=2"))
              some_session (lit "PLx7-_Q") some_session)
    as (_ & _ & _ & url & pre & post & Hurl & Hsplit & _).
  - by vm_compute.
  - by exists url, pre, post.
Defined.


(** X3. An address that holds no [list=] before its playlist parameter
    is accepted with exactly the id written there: for a non-empty id of
    characters of the class, ended by the end of the address or by
    another character, the form redirects to that id. *)
Theorem process_playlist_finds_id pre pid post fresh_id :
  ¬ substring (lit "list=") pre →
  pid ≠ [] →
  Forall (λ c, is_id_char c = true) pid →
  (∀ c, head post = Some c → is_id_char c = false) →
  process_playlist (Some (pre ++ lit "list=" ++ pid ++ post)) fresh_id
  = RedirectToProcessing pid fresh_id.
Proof.
  intros Hpre Hne Hall Hpost. unfold process_playlist.
  assert (search_list_id (pre ++ lit "list=" ++ pid ++ post) = Some pid)
    as ->.
  { rewrite search_list_id_skip by done.
    destruct (lit "list=" ++ pid ++ post) as [|b s] eqn:E.
    { by vm_compute in E. }
    cbn [search_list_id]. rewrite <- E.
    rewrite (proj2 (strip_prefix_Some _ _ (pid ++ post)) eq_refl).
    rewrite take_while_app_all by done. by destruct pid. }
  destruct (pre ++ lit "list=" ++ pid ++ post) eqn:E; [|done].
  apply app_eq_nil in E as [_ E]. by vm_compute in E.
Qed.

Lemma process_playlist_finds_id_witness :
  process_playlist
    (Some (playlist_url_prefix ++ lit "list=" ++ lit "PLx7-_Q"
           ++ lit "&index=2")) some_session
  = RedirectToProcessing (lit "PLx7-_Q") some_session.
Proof.
  apply process_playlist_finds_id.
  - intros H%is_substring_spec. by vm_compute in H.
  - by vm_compute.
  - by apply Forall_forall; vm_compute; intros c Hc;
      repeat (apply elem_of_cons in Hc as [->|Hc]; [done|]);
      apply elem_of_nil in Hc.
  - intros c [= <-]. by vm_compute.
Defined.

(** ** What a call of the item processor leaves in the status map *)

Lemma process_single_video_status w vid sid idx n st :
  ∃ o st' s,
    process_single_video w vid sid idx n st = (Ok o, st')
    ∧ processing_status st' !! sid = Some s
    ∧ (∀ sid', sid' ≠ sid →
         processing_status st' !! sid' = processing_status st !! sid')
    ∧ RunStatus.current s = idx
    ∧ RunStatus.total s = n
    ∧ RunStatus.percentage s = percentage_of idx n
    ∧ RunStatus.completed s = None
    ∧ (Outcome.status o = lit "skipped" →
       RunStatus.status s = lit "이미 처리된 영상")
    ∧ (Outcome.status o = lit "success" →
       RunStatus.status s = lit "완료!"
       ∧ Some (RunStatus.video_title s) = Outcome.title o)
    ∧ (Outcome.status o = lit "error" →
       (Outcome.message o = None
        ∧ RunStatus.status s = lit "영상 정보 가져오는 중...")
       ∨ ∃ m, Outcome.message o = Some m
              ∧ RunStatus.status s = lit "오류: " ++ take 30 m).
Proof.
  assert (lit "skipped" ≠ lit "success") as N1 by (by vm_compute).
  assert (lit "skipped" ≠ lit "error") as N2 by (by vm_compute).
  assert (lit "success" ≠ lit "error") as N3 by (by vm_compute).
  unfold process_single_video, get_recipes, try_except, update_status,
    execute_insert, mbind, M_bind, mret, M_ret.
  destruct (check_if_video_exists vid (recipes st)).
  - eexists _, _, _. split; [reflexivity|]. cbn.
    rewrite lookup_insert_eq. split; [reflexivity|].
    split_and!; try done.
    intros sid' Hne. by rewrite lookup_insert_ne.
  - cbn [recipes processing_status clock].
    destruct (get_video_info w vid) as [info|].
    + cbn [recipes processing_status clock].
      destruct (analyze_with_gemini w _ (vi_title info))
        as [[dish ing] srcs].
      cbn [recipes processing_status clock].
      destruct (insert_recipe _ _ _ _ _ _ _ _ (recipes st)) as [rows|e].
      * eexists _, _, _. split; [reflexivity|]. cbn.
        rewrite lookup_insert_eq. split; [reflexivity|].
        split_and!; try done.
        intros sid' Hne. by rewrite !lookup_insert_ne.
      * eexists _, _, _. split; [reflexivity|]. cbn.
        rewrite lookup_insert_eq. split; [reflexivity|].
        split_and!; try done.
        -- intros sid' Hne. by rewrite !lookup_insert_ne.
        -- intros _. right. by eexists.
    + eexists _, _, _. split; [reflexivity|]. cbn.
      rewrite lookup_insert_eq. split; [reflexivity|].
      split_and!; try done.
      -- intros sid' Hne. by rewrite lookup_insert_ne.
      -- intros _. by left.
Qed.

(** ** What a run leaves in the store and in the status map *)

Lemma check_if_video_exists_stored vid rows :
  check_if_video_exists vid rows = true ↔ vid ∈ stored_ids rows.
Proof.
  unfold check_if_video_exists, count_video, stored_ids.
  rewrite bool_decide_eq_true. induction rows as [|r rows IH].
  - cbn. rewrite elem_of_nil. lia.
  - rewrite filter_cons, fmap_cons, elem_of_cons.
    destruct (decide (Recipe.video_id r = vid)) as [->|Hne].
    + cbn [length]. split; [by left|lia].
    + rewrite IH. split; [by right|]. by intros [?|?].
Qed.

Lemma successes_cons o rs :
  successes (o :: rs)
  = ((if decide (Outcome.status o = lit "success") then 1 else 0)
     + successes rs)%nat.
Proof.
  unfold successes. rewrite filter_cons. by destruct (decide _).
Qed.

(** One item: the outcome, the rows it adds and the status it writes. *)
Lemma process_single_video_step w vid sid idx n st :
  ∃ o st' new,
    process_single_video w vid sid idx n st = (Ok o, st')
    ∧ Outcome.video_id o = vid
    ∧ recipes st' = recipes st ++ new
    ∧ length new = successes [o]
    ∧ Forall (λ r, Recipe.video_id r = vid) new
    ∧ (new ≠ [] → vid ∉ stored_ids (recipes st))
    ∧ is_Some (processing_status st' !! sid)
    ∧ (∀ sid', sid' ≠ sid →
         processing_status st' !! sid' = processing_status st !! sid').
Proof.
  destruct (process_single_video_cases w vid sid idx n st)
    as (o & st' & E & Hvid & C).
  destruct (process_single_video_status w vid sid idx n st)
    as (o' & st'' & s & E' & Hs & Hothers & _).
  rewrite E in E'. injection E' as <- <-.
  assert (successes [skipped vid] = 0%nat) as S1 by (by vm_compute).
  destruct C as [(_ & -> & Hrows)|[(_ & Herr & Hrows)|(Hex & info & _ & -> & Hrows)]].
  - exists (skipped vid), st', []. rewrite app_nil_r.
    by split_and!.
  - exists o, st', []. rewrite app_nil_r. split_and!; try done.
    rewrite successes_cons, Herr, decide_False; [done|by vm_compute].
  - eexists _, st', [_]. split_and!; try done.
    + by repeat constructor.
    + intros _ Hin%check_if_video_exists_stored. congruence.
Qed.

Lemma process_each_inv w sid total idx ids st :
  ∃ rs st' new,
    process_each w sid total idx ids st = (Ok rs, st')
    ∧ Outcome.video_id <$> rs = ids
    ∧ recipes st' = recipes st ++ new
    ∧ length new = successes rs
    ∧ Forall (λ r, Recipe.video_id r ∈ ids) new
    ∧ (NoDup (stored_ids (recipes st)) → NoDup (stored_ids (recipes st')))
    ∧ (is_Some (processing_status st !! sid) →
       is_Some (processing_status st' !! sid))
    ∧ (∀ sid', sid' ≠ sid →
         processing_status st' !! sid' = processing_status st !! sid').
Proof.
  revert idx st. induction ids as [|vid ids IH]; intros idx st.
  - exists [], st, []. rewrite app_nil_r. by split_and!.
  - cbn [process_each]. rewrite bind_run.
    destruct (process_single_video_step w vid sid idx total st)
      as (o & st1 & new1 & -> & Hvid & Hrows1 & Hlen1 & Hall1 & Hfresh
          & Hsome1 & Hoth1).
    rewrite bind_run.
    destruct (IH (S idx) st1)
      as (rs & st2 & new2 & -> & Hrs & Hrows2 & Hlen2 & Hall2 & Hdup2
          & Hsome2 & Hoth2).
    exists (o :: rs), st2, (new1 ++ new2).
    split; [reflexivity|]. split_and!.
    + by rewrite fmap_cons, Hvid, Hrs.
    + by rewrite Hrows2, Hrows1, <- (assoc_L (++)).
    + rewrite length_app, Hlen1, Hlen2, !successes_cons.
      change (successes []) with 0%nat. lia.
    + apply Forall_app. split.
      * eapply Forall_impl; [exact Hall1|]. intros r ->. by left.
      * eapply Forall_impl; [exact Hall2|]. intros r ?. by right.
    + intros Hdup. apply Hdup2. rewrite Hrows1.
      unfold stored_ids in *. rewrite fmap_app. apply NoDup_app.
      split; [done|]. split.
      * intros x Hx Hin. apply list_elem_of_fmap in Hin as (r & -> & Hr).
        assert (Recipe.video_id r = vid) as Hrv
          by by eapply Forall_forall in Hall1.
        apply Hfresh; [by intros ->; apply elem_of_nil in Hr|].
        by rewrite <- Hrv.
      * destruct new1 as [|r [|r' new1]]; [constructor| |].
        -- apply NoDup_singleton.
        -- exfalso. revert Hlen1. rewrite successes_cons.
           change (successes []) with 0%nat.
           destruct (decide _); cbn [length]; lia.
    + intros _. by apply Hsome2.
    + intros sid' Hne. by rewrite Hoth2, Hoth1.
Qed.

Lemma capped_ids (ids : list str) :
  (if (FREE_TIER_LIMIT <? length ids)%nat
   then take FREE_TIER_LIMIT ids else ids)
  = take FREE_TIER_LIMIT ids.
Proof.
  destruct (Nat.ltb_spec FREE_TIER_LIMIT (length ids)); [done|].
  by rewrite take_ge.
Qed.

Lemma successes_le (rs : list Outcome.t) : (successes rs ≤ length rs)%nat.
Proof. unfold successes. apply length_filter. Qed.

(** A whole run: outcomes, store and status map. *)
Lemma start_processing_run w pid sid st :
  ∃ rs st' new s,
    start_processing w pid sid st = (Ok rs, st')
    ∧ Outcome.video_id <$> rs
      = take FREE_TIER_LIMIT (get_playlist_items w pid)
    ∧ recipes st' = recipes st ++ new
    ∧ length new = successes rs
    ∧ Forall (λ r, Recipe.video_id r
                   ∈ take FREE_TIER_LIMIT (get_playlist_items w pid)) new
    ∧ (NoDup (stored_ids (recipes st)) → NoDup (stored_ids (recipes st')))
    ∧ processing_status st' !! sid = Some s
    ∧ RunStatus.completed s = Some true
    ∧ RunStatus.success_count s = Some (successes rs)
    ∧ RunStatus.total s = length rs
    ∧ (∀ sid', sid' ≠ sid →
         processing_status st' !! sid' = processing_status st !! sid').
Proof.
  unfold start_processing. rewrite capped_ids.
  set (ids := take FREE_TIER_LIMIT (get_playlist_items w pid)).
  rewrite bind_run. unfold update_status at 1.
  set (st1 := {| recipes := recipes st;
                 processing_status := _; clock := S (clock st) |}).
  unfold process_videos. rewrite bind_run.
  destruct (process_each_inv w sid (length ids) 1 ids st1)
    as (rs & st2 & new & -> & Hrs & Hrows & Hlen & Hall & Hdup & Hsome & Hoth).
  destruct Hsome as [s2 Hs2].
  { subst st1. cbn [processing_status]. rewrite lookup_insert_eq. by eexists. }
  rewrite bind_run. unfold mark_completed.
  eexists rs, _, new, _. split; [reflexivity|].
  cbn [recipes processing_status].
  rewrite lookup_alter_eq, Hs2. cbn [fmap option_fmap option_map].
  split_and!; try done.
  - cbn. by rewrite <- (length_fmap Outcome.video_id rs), Hrs.
  - intros sid' Hne. rewrite lookup_alter_ne by done.
    rewrite Hoth by done. subst st1. cbn [processing_status].
    by rewrite lookup_insert_ne.
Qed.

(** ** The run, item by item *)

Lemma process_each_chain w sid total idx ids st :
  ∃ rs st',
    process_each w sid total idx ids st = (Ok rs, st')
    ∧ processed_in_order w sid total idx ids st rs st'.
Proof.
  revert idx st. induction ids as [|vid ids IH]; intros idx st.
  - exists [], st. split; [done|]. constructor.
  - cbn [process_each]. rewrite bind_run.
    destruct (process_single_video_cases w vid sid idx total st)
      as (o & st1 & E & _).
    rewrite E, bind_run.
    destruct (IH (S idx) st1) as (rs & st2 & -> & Hchain).
    exists (o :: rs), st2. split; [reflexivity|].
    by econstructor.
Qed.

Lemma check_if_video_exists_app vid rows new :
  check_if_video_exists vid rows = true →
  check_if_video_exists vid (rows ++ new) = true.
Proof.
  rewrite !check_if_video_exists_stored. unfold stored_ids.
  rewrite fmap_app, elem_of_app. by left.
Qed.

(** What a chain of calls leaves in the store: it only appends, and the
    id of every item that was not answered with an error is stored at
    the end. *)
Lemma processed_in_order_stored w sid total idx ids st rs st' :
  processed_in_order w sid total idx ids st rs st' →
  (∃ new, recipes st' = recipes st ++ new)
  ∧ Forall2 (λ vid o,
               Outcome.video_id o = vid
               ∧ (Outcome.status o ≠ lit "error" →
                  check_if_video_exists vid (recipes st') = true))
      ids rs.
Proof.
  induction 1 as [idx st|idx vid rest st o st1 rs st2 E _ [[new2 Hnew2] IH]].
  - split; [|constructor]. exists []. by rewrite app_nil_r.
  - destruct (process_single_video_cases w vid sid idx total st)
      as (o' & st1' & E' & Hvid & C).
    rewrite E in E'. injection E' as <- <-.
    assert (∃ new1, recipes st1 = recipes st ++ new1
                    ∧ (Outcome.status o ≠ lit "error" →
                       check_if_video_exists vid (recipes st1) = true))
      as (new1 & Hnew1 & Hstored).
    { destruct C as [(Hin & _ & Hrows)|[(_ & Herr & Hrows)|(_ & info & _ & _ & Hrows)]].
      - exists []. rewrite app_nil_r. split; [done|].
        intros _. by rewrite Hrows.
      - exists []. by rewrite app_nil_r.
      - exists [recipe_row w vid info]. split; [done|]. intros _.
        rewrite Hrows. apply check_if_video_exists_stored.
        unfold stored_ids. rewrite fmap_app, elem_of_app. right.
        by left. }
    split.
    + exists (new1 ++ new2). by rewrite Hnew2, Hnew1, <- (assoc_L (++)).
    + constructor; [|done]. split; [done|].
      intros Hok. rewrite Hnew2. by apply check_if_video_exists_app, Hstored.
Qed.

Lemma count_video_app vid rows new :
  count_video vid (rows ++ new)
  = (count_video vid rows + count_video vid new)%nat.
Proof. unfold count_video. by rewrite filter_app, length_app. Qed.

Lemma count_video_others vid (ids : list str) new :
  vid ∉ ids →
  Forall (λ r, Recipe.video_id r ∈ ids) new →
  count_video vid new = 0%nat.
Proof.
  intros Hout. unfold count_video.
  induction 1 as [|r new Hr _ IH]; [done|].
  rewrite filter_cons_False; [done|]. by intros <-.
Qed.

(** C9. A run hands the first [FREE_TIER_LIMIT = 10] ids of the playlist,
    and no other, to the item processor, one after the other in playlist
    order: the status is set up for the capped number of items, the item
    processor is called on each id in turn with the indexes 1, 2, ...,
    each call starting in the state the call before it left, and the run
    is then marked completed; the outcomes of the run are the outcomes
    of these calls, in order. Every id that was not answered with an
    error is in the store afterwards, and the store has gained no row
    for any other id. Of 37 items exactly the first 10 are processed. *)
Theorem batch_capped_in_order w playlist_id session_id st :
  FREE_TIER_LIMIT = 10%nat
  ∧ ∃ results st0 st1 st',
      let video_ids :=
        take FREE_TIER_LIMIT (get_playlist_items w playlist_id) in
      update_status w session_id 0 (length video_ids)
        (lit "처리 준비 중...") (lit "") st = (Ok (), st0)
      ∧ processed_in_order w session_id (length video_ids) 1 video_ids
          st0 results st1
      ∧ mark_completed session_id (successes results) (length video_ids) st1
        = (Ok (), st')
      ∧ start_processing w playlist_id session_id st = (Ok results, st')
      ∧ length results
        = (length (get_playlist_items w playlist_id) `min` 10)%nat
      ∧ Forall2 (λ video_id o,
                   Outcome.video_id o = video_id
                   ∧ (Outcome.status o ≠ lit "error" →
                      check_if_video_exists video_id (recipes st') = true))
          video_ids results
      ∧ (∃ new, recipes st' = recipes st ++ new
                ∧ Forall (λ r, Recipe.video_id r ∈ video_ids) new)
      ∧ (∀ video_id, video_id ∉ video_ids →
           count_video video_id (recipes st')
           = count_video video_id (recipes st))
      ∧ (length (get_playlist_items w playlist_id) = 37%nat →
         length results = 10%nat
         ∧ Outcome.video_id <$> results
           = take 10 (get_playlist_items w playlist_id)).
Proof.
  split; [reflexivity|].
  set (ids := take FREE_TIER_LIMIT (get_playlist_items w playlist_id)).
  destruct (update_status_run w session_id 0 (length ids)
              (lit "처리 준비 중...") (lit "") st) as (st0 & E0 & Hrows0).
  destruct (process_each_chain w session_id (length ids) 1 ids st0)
    as (results & st1 & E1 & Hchain).
  destruct (process_each_inv w session_id (length ids) 1 ids st0)
    as (rs' & st1' & new & E1' & Hids & Hnew & _ & Hall & _).
  rewrite E1 in E1'. injection E1' as <- <-.
  destruct (processed_in_order_stored _ _ _ _ _ _ _ _ Hchain)
    as [_ Hstored].
  assert (length results
          = (length (get_playlist_items w playlist_id) `min` 10)%nat)
    as Hlen.
  { rewrite <- (length_fmap Outcome.video_id), Hids. unfold ids.
    rewrite length_take. unfold FREE_TIER_LIMIT. lia. }
  eexists results, st0, st1, _. cbv zeta. fold ids.
  split_and!; [exact E0|exact Hchain|reflexivity|..].
  - unfold start_processing. rewrite capped_ids. fold ids.
    rewrite bind_run, E0. unfold process_videos.
    by rewrite bind_run, E1.
  - exact Hlen.
  - exact Hstored.
  - exists new. cbn [recipes]. by rewrite Hnew, Hrows0.
  - intros video_id Hout. cbn [recipes].
    rewrite Hnew, Hrows0, count_video_app.
    rewrite (count_video_others video_id ids new) by done. lia.
  - intros H37. rewrite Hlen, H37. split; [done|]. exact Hids.
Qed.

Lemma batch_capped_in_order_witness :
  length (get_playlist_items (cooking_world playlist_37) (lit "PL"))
  = 37%nat
  ∧ ∃ results st',
      start_processing (cooking_world playlist_37) (lit "PL") some_session
        empty_state = (Ok results, st')
      ∧ Outcome.video_id <$> results = take 10 playlist_37
      ∧ Forall2 (λ video_id o,
                   Outcome.video_id o = video_id
                   ∧ (Outcome.status o ≠ lit "error" →
                      check_if_video_exists video_id (recipes st') = true))
          (take 10 playlist_37) results.
Proof.
  split; [reflexivity|].
  destruct (batch_capped_in_order (cooking_world playlist_37) (lit "PL")
              some_session empty_state)
    as (_ & results & st0 & st1 & st' & _ & _ & _ & E & _ & Hall & _ & _
        & H37).
  exists results, st'. split; [exact E|].
  split; [exact (proj2 (H37 eq_refl))|exact Hall].
Defined.

Example batch_of_37 :
  let run := start_processing (cooking_world playlist_37) (lit "PL")
               some_session empty_state in
  (fmap (M := list) Outcome.video_id <$> run.1) = Ok (take 10 playlist_37)
  ∧ (fmap (M := list) Outcome.status <$> run.1)
    = Ok (replicate 10 (lit "success"))
  ∧ stored_ids (recipes run.2) = take 10 playlist_37.
Proof. vm_compute. done. Qed.

(** X4. After a run the status of its session says [completed], with the
    capped number of items as [total] and the number of [success]
    outcomes as [success_count]; the store has grown by exactly that many
    rows, which is at most 10, and the status of every other session is
    as it was. *)
Theorem run_completion_report w playlist_id session_id st :
  ∃ results st',
    start_processing w playlist_id session_id st = (Ok results, st')
    ∧ RunStatus.completed (get_status st' session_id) = Some true
    ∧ RunStatus.total (get_status st' session_id)
      = (length (get_playlist_items w playlist_id) `min` 10)%nat
    ∧ RunStatus.success_count (get_status st' session_id)
      = Some (successes results)
    ∧ length (recipes st') = (length (recipes st) + successes results)%nat
    ∧ (successes results ≤ length results ≤ 10)%nat
    ∧ (∀ other, other ≠ session_id →
         get_status st' other = get_status st other).
Proof.
  destruct (start_processing_run w playlist_id session_id st)
    as (rs & st' & new & s & E & Hrs & Hrows & Hlen & _ & _ & Hs & Hdone
        & Hcount & Htotal & Hoth).
  assert (length rs
          = (length (get_playlist_items w playlist_id) `min` 10)%nat)
    as Hlenrs.
  { rewrite <- (length_fmap Outcome.video_id), Hrs, length_take.
    unfold FREE_TIER_LIMIT. lia. }
  exists rs, st'. unfold get_status. rewrite Hs. cbn [default from_option id].
  split_and!.
  - exact E.
  - exact Hdone.
  - by rewrite Htotal.
  - exact Hcount.
  - rewrite Hrows, length_app. lia.
  - apply successes_le.
  - lia.
  - intros other Hne. by rewrite Hoth.
Qed.

(** X5. A run only appends to the store: the rows it found are still
    there, in the same order; every row it adds belongs to one of the
    first 10 ids of the playlist; and if no two stored rows shared an id
    before, none do after. *)
Theorem run_keeps_store_unique w playlist_id session_id st :
  ∃ results st' new,
    start_processing w playlist_id session_id st = (Ok results, st')
    ∧ recipes st' = recipes st ++ new
    ∧ Forall (λ r, Recipe.video_id r
                   ∈ take 10 (get_playlist_items w playlist_id)) new
    ∧ (NoDup (stored_ids (recipes st)) → NoDup (stored_ids (recipes st'))).
Proof.
  destruct (start_processing_run w playlist_id session_id st)
    as (rs & st' & new & s & E & _ & Hrows & _ & Hall & Hdup & _).
  by exists rs, st', new.
Qed.

(** ** The processing page *)

(** X6. The processing page is refused only for a playlist without
    items. Otherwise it announces the session id of the request (the
    fresh one when the request has none), the full size of the playlist,
    a number of items between 1 and 10 that is the size capped at 10,
    and [limited] exactly when the playlist is longer than 10; the run
    then started for the same playlist processes exactly the announced
    number of items. *)
Theorem processing_page_announces_run w playlist_id session_arg fresh_id
    session_id st :
  match process_playlist_manual w playlist_id session_arg fresh_id with
  | ProcessingPage s total_videos original_count limited p =>
    s = default fresh_id session_arg
    ∧ p = playlist_id
    ∧ original_count = length (get_playlist_items w playlist_id)
    ∧ total_videos = (original_count `min` 10)%nat
    ∧ (1 ≤ total_videos ≤ 10)%nat
    ∧ (limited = true ↔ (10 < original_count)%nat)
    ∧ ∃ results st',
        start_processing w playlist_id session_id st = (Ok results, st')
        ∧ length results = total_videos
  | BadRequest _ => get_playlist_items w playlist_id = []
  | RedirectToProcessing _ _ => False
  end.
Proof.
  unfold process_playlist_manual.
  destruct (get_playlist_items w playlist_id) as [|vid ids] eqn:Hids;
    [done|].
  set (all := vid :: ids) in *.
  assert (0 < length all)%nat as Hpos by (subst all; cbn; lia).
  destruct (start_processing_run w playlist_id session_id st)
    as (rs & st' & _ & _ & E & Hrs & _).
  assert (length rs = (length all `min` 10)%nat) as Hlen.
  { rewrite <- (length_fmap Outcome.video_id), Hrs, Hids, length_take.
    unfold FREE_TIER_LIMIT. lia. }
  unfold FREE_TIER_LIMIT.
  destruct (Nat.ltb_spec 10 (length all)) as [Hlt|Hge];
    rewrite ?length_take; split_and!;
    first [ done | lia | by split; [done|lia]
          | by split; [lia|done]
          | exists rs, st'; split; [done|lia] ].
Qed.

(** ** Percentages *)

Lemma percentage_of_capped idx total :
  (idx ≤ total ≤ 10)%nat →
  percentage_of idx total
  = if (0 <? total)%nat then (100 * Z.of_nat idx / Z.of_nat total)%Z
    else 0%Z.
Proof.
  intros [Hle Hcap].
  assert (forallb
            (λ t, forallb
                    (λ c, (percentage_of c t
                           =? if (0 <? t)%nat
                              then 100 * Z.of_nat c / Z.of_nat t else 0)%Z)
                    (seq 0 (S t)))
            (seq 0 11) = true) as Htable by (by vm_compute).
  rewrite List.forallb_forall in Htable.
  specialize (Htable total). rewrite List.forallb_forall in Htable.
  apply Z.eqb_eq, Htable; apply List.in_seq; lia.
Qed.

(** X7. Within the cap of 10 items the percentage written to the status
    map is exact: for [current ≤ total ≤ 10] the status read back after
    [update_status] holds the integer part of [100 * current / total]
    (0 for an empty run), which lies between 0 and 100, together with
    the count, the text and the title that were written; the status of
    every other session is unchanged. *)
Theorem update_status_read_back w session_id current total status_text
    video_title st :
  (current ≤ total ≤ FREE_TIER_LIMIT)%nat →
  ∃ st',
    update_status w session_id current total status_text video_title st
    = (Ok (), st')
    ∧ RunStatus.current (get_status st' session_id) = current
    ∧ RunStatus.total (get_status st' session_id) = total
    ∧ RunStatus.status (get_status st' session_id) = status_text
    ∧ RunStatus.video_title (get_status st' session_id) = video_title
    ∧ RunStatus.percentage (get_status st' session_id)
      = (if (0 <? total)%nat
         then (100 * Z.of_nat current / Z.of_nat total)%Z else 0%Z)
    ∧ (0 ≤ RunStatus.percentage (get_status st' session_id) ≤ 100)%Z
    ∧ (∀ other, other ≠ session_id →
         get_status st' other = get_status st other).
Proof.
  intros Hcap. unfold FREE_TIER_LIMIT in Hcap.
  eexists. split; [reflexivity|].
  unfold get_status. cbn [processing_status].
  rewrite lookup_insert_eq. cbn [default from_option id RunStatus.current
    RunStatus.total RunStatus.status RunStatus.video_title
    RunStatus.percentage].
  rewrite percentage_of_capped by done.
  split_and!; try done.
  - destruct (Nat.ltb_spec 0 total); [|lia].
    apply Z.div_pos; lia.
  - destruct (Nat.ltb_spec 0 total); [|lia].
    apply Z.div_le_upper_bound; lia.
  - intros other Hne. by rewrite lookup_insert_ne.
Qed.

Lemma update_status_read_back_witness :
  ∃ st',
    update_status silent_world some_session 3 7 (lit "AI 분석 중...")
      (lit "Kimchi stew") empty_state = (Ok (), st')
    ∧ RunStatus.percentage (get_status st' some_session) = 42%Z.
Proof.
  destruct (update_status_read_back silent_world some_session 3 7
              (lit "AI 분석 중...") (lit "Kimchi stew") empty_state)
    as (st' & E & _ & _ & _ & _ & Hp & _).
  - unfold FREE_TIER_LIMIT. lia.
  - exists st'. split; [exact E|exact Hp].
Defined.

(** X8. After a call of the item processor the status of its session
    shows the index and the total of the call and no [completed] flag;
    its text is the skip notice after [skipped], the done notice with
    the video title after [success], and after [error] either the
    truncated exception text or, when the metadata could not be
    fetched, still the notice of the metadata stage. No other session's
    status changes. *)
Theorem item_status_report w video_id session_id idx total st :
  ∃ o st',
    process_single_video w video_id session_id idx total st = (Ok o, st')
    ∧ RunStatus.current (get_status st' session_id) = idx
    ∧ RunStatus.total (get_status st' session_id) = total
    ∧ RunStatus.completed (get_status st' session_id) = None
    ∧ (Outcome.status o = lit "skipped" →
       RunStatus.status (get_status st' session_id)
       = lit "이미 처리된 영상")
    ∧ (Outcome.status o = lit "success" →
       RunStatus.status (get_status st' session_id) = lit "완료!"
       ∧ Some (RunStatus.video_title (get_status st' session_id))
         = Outcome.title o)
    ∧ (Outcome.status o = lit "error" →
       (Outcome.message o = None
        ∧ get_video_info w video_id = None
        ∧ RunStatus.status (get_status st' session_id)
          = lit "영상 정보 가져오는 중...")
       ∨ ∃ m, Outcome.message o = Some m
              ∧ RunStatus.status (get_status st' session_id)
                = lit "오류: " ++ take 30 m)
    ∧ (∀ other, other ≠ session_id →
         get_status st' other = get_status st other).
Proof.
  destruct (process_single_video_status w video_id session_id idx total st)
    as (o & st' & s & E & Hs & Hoth & Hcur & Htot & _ & Hdone & Hskip & Hok
        & Herr).
  exists o, st'. unfold get_status. rewrite Hs.
  cbn [default from_option id]. split_and!; try done.
  - intros He. destruct (Herr He) as [[Hm Ht]|Hm]; [left|by right].
    split_and!; [done| |done].
    destruct (process_single_video_cases w video_id session_id idx total st)
      as (o' & st'' & E' & _ & C).
    rewrite E in E'. injection E' as <- <-.
    destruct C as [(_ & -> & _)|[(_ & _ & _)|(_ & info & _ & -> & _)]].
    + by vm_compute in He.
    + revert E Hm. unfold process_single_video, get_recipes, try_except,
        update_status, execute_insert, mbind, M_bind, mret, M_ret.
      destruct (check_if_video_exists _ _); [by intros [= <- _]|].
      destruct (get_video_info w video_id) as [info|]; [|done].
      cbn [recipes processing_status clock].
      destruct (analyze_with_gemini _ _ _) as [[? ?] ?].
      destruct (insert_recipe _ _ _ _ _ _ _ _ _); by intros [= <- _].
    + by vm_compute in He.
  - intros other Hne. by rewrite Hoth.
Qed.

(** ** The playlist fetcher *)

Lemma playlist_loop_chain api token pages :
  page_chain api token pages →
  ∀ fuel acc,
    Youtube.playlist_loop fuel api token acc
    = if decide (length pages ≤ fuel)%nat
      then Some (Ok (acc ++ page_ids pages)) else None.
Proof.
  induction 1 as [token page Hpage Hlast|token page c next pages Hpage Hnext _ IH];
    intros [|fuel] acc; cbn [Youtube.playlist_loop length].
  - by rewrite decide_False by lia.
  - rewrite Hpage, decide_True by lia.
    unfold page_ids. cbn [fmap list_fmap concat]. rewrite app_nil_r.
    by destruct Hlast as [->| ->].
  - by rewrite decide_False by lia.
  - rewrite Hpage, Hnext, IH.
    destruct (decide (length pages ≤ fuel)%nat).
    + rewrite decide_True by lia. unfold page_ids.
      cbn [fmap list_fmap concat]. by rewrite (assoc_L (++)).
    + by rewrite decide_False by lia.
Qed.

Lemma playlist_loop_broken api token pages :
  broken_chain api token pages →
  ∀ fuel acc,
    ((length pages < fuel)%nat →
     ∃ e, Youtube.playlist_loop fuel api token acc = Some (Raise e))
    ∧ ((fuel ≤ length pages)%nat →
       Youtube.playlist_loop fuel api token acc = None).
Proof.
  induction 1 as [token e He|token page c next pages Hpage Hnext _ IH];
    intros [|fuel] acc; cbn [Youtube.playlist_loop length].
  - split; [lia|done].
  - rewrite He. split; [by exists e|lia].
  - split; [lia|done].
  - rewrite Hpage, Hnext.
    destruct (IH fuel (acc ++ omap id (Youtube.items page))) as [H1 H2].
    split; intros ?; [apply H1|apply H2]; lia.
Qed.

(** X9. When the playlist service answers page after page up to a page
    that names no further page, [get_playlist_items] returns the video
    ids of all pages in order, leaving out the items without a video
    id, as soon as it may make one request per page; with fewer
    requests the loop has not ended. *)
Theorem get_playlist_items_all_pages api pages fuel :
  page_chain api None pages →
  Youtube.get_playlist_items fuel api
  = if decide (length pages ≤ fuel)%nat then Some (page_ids pages)
    else None.
Proof.
  intros Hchain. unfold Youtube.get_playlist_items.
  rewrite (playlist_loop_chain api None pages Hchain).
  by destruct (decide _).
Qed.

Lemma get_playlist_items_all_pages_witness :
  Youtube.get_playlist_items 2 (two_pages (Ok second_page))
  = Some [lit "v1"; lit "v2"; lit "v3"].
Proof.
  rewrite (get_playlist_items_all_pages (two_pages (Ok second_page))
             [{| Youtube.items := [Some (lit "v1"); None; Some (lit "v2")];
                 Youtube.nextPageToken := Some (lit "p2") |}; second_page]).
  - rewrite decide_True by (cbn; lia). reflexivity.
  - eapply chain_next; [reflexivity|reflexivity|].
    apply chain_last; [reflexivity|by left].
Defined.

(** X10. When a request of the playlist service fails, whether the first
    or a later one, [get_playlist_items] returns the empty list: the ids
    collected from the pages before the failure are dropped. *)
Theorem get_playlist_items_all_or_nothing api pages fuel :
  broken_chain api None pages →
  (length pages < fuel)%nat →
  Youtube.get_playlist_items fuel api = Some [].
Proof.
  intros Hchain Hfuel. unfold Youtube.get_playlist_items.
  destruct (playlist_loop_broken api None pages Hchain fuel []) as [H _].
  by destruct (H Hfuel) as [e ->].
Qed.

Lemma get_playlist_items_all_or_nothing_witness :
  Youtube.get_playlist_items 2 (two_pages (Raise ServiceError)) = Some []
  ∧ page_ids [{| Youtube.items := [Some (lit "v1"); None; Some (lit "v2")];
                 Youtube.nextPageToken := Some (lit "p2") |}]
    = [lit "v1"; lit "v2"].
Proof.
  split; [|reflexivity].
  refine (get_playlist_items_all_or_nothing
            (two_pages (Raise ServiceError)) [_] 2 _ _).
  - eapply broken_later; [reflexivity|reflexivity|].
    by eapply broken_here.
  - cbn. lia.
Defined.

(** ** The comment fetcher *)

Lemma tag_free_no_tag s : tag_free s → ¬ has_tag s.
Proof.
  intros Hfree (pre & inside & post & -> & Hne & Hin).
  destruct (Hfree pre (inside ++ [Youtube.gt] ++ post) eq_refl) as [H|H].
  - destruct inside as [|c inside]; [done|]. injection H as ->.
    apply Hin. by left.
  - apply H. rewrite !elem_of_app, list_elem_of_singleton. auto.
Qed.

Lemma tag_free_cons c s : c ≠ Youtube.lt → tag_free s → tag_free (c :: s).
Proof.
  intros Hc Hfree [|a pre] rest E.
  - by injection E as E1 _.
  - injection E as _ E2. by apply (Hfree pre).
Qed.

Lemma tag_free_no_gt s : Youtube.gt ∉ s → tag_free s.
Proof.
  intros Hno pre rest ->. right. intros Hin. apply Hno.
  rewrite elem_of_app, elem_of_cons. auto.
Qed.

Lemma tag_free_empty_tag s :
  tag_free s → tag_free (Youtube.lt :: Youtube.gt :: s).
Proof.
  intros Hfree [|a [|b pre]] rest E.
  - injection E as E1. rewrite <- E1. by left.
  - by injection E.
  - injection E as _ _ E3. by apply (Hfree pre).
Qed.

Lemma strip_tags_from_free s :
  tag_free (Youtube.strip_tags_from None s)
  ∧ ∀ inside, Youtube.gt ∉ inside →
              tag_free (Youtube.strip_tags_from (Some inside) s).
Proof.
  induction s as [|c s [IH1 IH2]]; cbn [Youtube.strip_tags_from].
  - split; [by apply tag_free_no_gt, not_elem_of_nil|].
    intros inside Hin. apply tag_free_no_gt.
    by apply not_elem_of_cons.
  - split.
    + destruct (N.eqb_spec c Youtube.lt) as [->|Hc].
      * apply IH2, not_elem_of_nil.
      * by apply tag_free_cons.
    + intros inside Hin. destruct (N.eqb_spec c Youtube.gt) as [->|Hc].
      * destruct inside; [by apply tag_free_empty_tag|done].
      * apply IH2. rewrite not_elem_of_app, not_elem_of_cons.
        split; [done|]. split; [done|apply not_elem_of_nil].
Qed.

Lemma strip_tags_from_sublist s :
  Youtube.strip_tags_from None s `sublist_of` s
  ∧ ∀ inside,
      Youtube.strip_tags_from (Some inside) s
      `sublist_of` Youtube.lt :: inside ++ s.
Proof.
  induction s as [|c s [IH1 IH2]]; cbn [Youtube.strip_tags_from].
  - split; [done|]. intros inside. by rewrite app_nil_r.
  - split.
    + destruct (N.eqb_spec c Youtube.lt) as [->|Hc].
      * apply (IH2 []).
      * by apply sublist_skip.
    + intros inside. destruct (N.eqb_spec c Youtube.gt) as [->|Hc].
      * destruct inside as [|a inside].
        -- by do 2 apply sublist_skip.
        -- apply sublist_cons, (sublist_inserts_l (a :: inside)).
           by apply sublist_cons.
      * specialize (IH2 (inside ++ [c])).
        by rewrite <- (assoc_L (++)) in IH2.
Qed.

Lemma strip_tags_from_open inside s :
  Youtube.gt ∉ s →
  Youtube.strip_tags_from (Some inside) s = Youtube.lt :: inside ++ s.
Proof.
  revert inside. induction s as [|c s IH]; intros inside Hno;
    cbn [Youtube.strip_tags_from].
  - by rewrite app_nil_r.
  - apply not_elem_of_cons in Hno as [Hc Hno].
    destruct (N.eqb_spec c Youtube.gt); [done|].
    by rewrite IH, <- (assoc_L (++)).
Qed.

Lemma tag_free_tail c s : tag_free (c :: s) → tag_free s.
Proof. intros Hfree pre rest ->. by apply (Hfree (c :: pre)). Qed.

Lemma strip_tags_free_fixed n s :
  (length s ≤ n)%nat → tag_free s → Youtube.strip_tags_from None s = s.
Proof.
  revert s. induction n as [|n IH]; intros [|c s] Hlen Hfree;
    cbn [Youtube.strip_tags_from length] in *; [done|lia|done|].
  destruct (N.eqb_spec c Youtube.lt) as [->|Hc].
  - destruct (Hfree [] s eq_refl) as [Hgt|Hno].
    + destruct s as [|d s]; [done|]. injection Hgt as ->.
      cbn [Youtube.strip_tags_from length] in *.
      rewrite IH; [done|lia|]. by do 2 apply tag_free_tail in Hfree.
    + by rewrite strip_tags_from_open.
  - rewrite IH; [done|lia|]. by apply tag_free_tail in Hfree.
Qed.

(** X11. Removing the markup of a comment leaves no tag behind, so doing
    it twice changes nothing more; what remains is the comment with
    characters taken out, in the same order; and a comment without [<]
    is returned as it is. *)
Theorem strip_tags_removes_all_tags (comment : str) :
  ¬ has_tag (Youtube.strip_tags comment)
  ∧ Youtube.strip_tags (Youtube.strip_tags comment)
    = Youtube.strip_tags comment
  ∧ Youtube.strip_tags comment `sublist_of` comment
  ∧ (Youtube.lt ∉ comment → Youtube.strip_tags comment = comment).
Proof.
  unfold Youtube.strip_tags.
  pose proof (proj1 (strip_tags_from_free comment)) as Hfree.
  split_and!.
  - by apply tag_free_no_tag.
  - by apply (strip_tags_free_fixed _ _ (Nat.le_refl _)).
  - apply strip_tags_from_sublist.
  - intros Hno. apply (strip_tags_free_fixed _ _ (Nat.le_refl _)).
    intros pre rest ->. exfalso. apply Hno.
    rewrite elem_of_app, elem_of_cons. auto.
Qed.

(** X12. The comment fetcher returns nothing when the request fails or
    when one item lacks its text, whatever the other items hold;
    otherwise it returns the comments without their markup, joined by
    [" | "], in the order of the response. A response without items
    gives the empty text, which fills the comments slot of the item
    processor no more than a failure does. *)
Theorem get_video_comments_cases (response : result (list (option str))) :
  (∀ e, response = Raise e → Youtube.get_video_comments response = None)
  ∧ (∀ items, response = Ok items → None ∈ items →
       Youtube.get_video_comments response = None)
  ∧ (∀ comments, response = Ok (Some <$> comments) →
       Youtube.get_video_comments response
       = Some (join (lit " | ") (Youtube.strip_tags <$> comments)))
  ∧ (∀ data_dict : gmap str str,
       set_if_nonempty k_comments (Youtube.get_video_comments (Ok []))
         data_dict = data_dict
       ∧ set_if_nonempty k_comments
           (Youtube.get_video_comments (Raise ServiceError)) data_dict
         = data_dict).
Proof.
  unfold Youtube.get_video_comments. split_and!.
  - by intros e ->.
  - intros items -> Hin.
    destruct (mapM id items) as [comments|] eqn:E; [|done].
    apply mapM_Some in E. exfalso.
    induction E as [|x y l k Hxy _ IH]; [by apply elem_of_nil in Hin|].
    apply elem_of_cons in Hin as [<-|Hin]; [done|by apply IH].
  - intros comments ->.
    rewrite (mapM_Some_2 id (Some <$> comments) comments); [done|].
    induction comments; by constructor.
  - done.
Qed.

(** ** The caption fetcher *)


(** ** The prompt *)

Lemma prompt_length title combined_text :
  length (prompt title combined_text)
  = (length title + length combined_text + length (prompt [] []))%nat.
Proof. unfold prompt. rewrite !length_app. cbn [length]. lia. Qed.

Lemma combined_text_length (data_dict : gmap str str) :
  (length (join blank_line (available_data data_dict)) ≤ 3816)%nat.
Proof.
  assert (length (lit "자막: ") = 4%nat) as L1 by reflexivity.
  assert (length (lit "설명: ") = 4%nat) as L2 by reflexivity.
  assert (length (lit "댓글: ") = 4%nat) as L3 by reflexivity.
  assert (length blank_line = 2%nat) as L4 by reflexivity.
  pose proof (length_take (slot_text data_dict k_transcript) 2000).
  pose proof (length_take (slot_text data_dict k_description) 1000).
  pose proof (length_take (slot_text data_dict k_comments) 800).
  unfold available_data.
  destruct (slot_filled data_dict k_transcript),
           (slot_filled data_dict k_description),
           (slot_filled data_dict k_comments);
    cbn [app join]; rewrite ?length_app, ?L1, ?L2, ?L3, ?L4;
    cbn [length]; lia.
Qed.

(** X14. However long the captions, the description and the comments
    are, the prompt sent to the model is at most 3816 characters longer
    than the title plus the fixed text of the instructions. *)
Theorem prompt_bounded (data_dict : gmap str str) (title : str) :
  (length (prompt_of data_dict title)
   ≤ length title + length (prompt [] []) + 3816)%nat
  ∧ length (prompt [] []) = 215%nat.
Proof.
  split; [|reflexivity]. unfold prompt_of. rewrite prompt_length.
  pose proof (combined_text_length data_dict) as H.
  unfold blank_line in H. lia.
Qed.

Lemma slot_agree (data_dict data_dict' : gmap str str) key n :
  (0 < n)%nat →
  take n <$> data_dict !! key = take n <$> data_dict' !! key →
  slot_filled data_dict key = slot_filled data_dict' key
  ∧ take n (slot_text data_dict key) = take n (slot_text data_dict' key).
Proof.
  intros Hn. unfold slot_filled, slot_text.
  destruct (data_dict !! key) as [s|], (data_dict' !! key) as [s'|];
    cbn; intros [=]; [|done]. split; [|done].
  destruct n as [|n]; [lia|]. by destruct s, s'.
Qed.

Lemma read_record_same_sources (d1 d2 : gmap str str) title data :
  sources_of d1 = sources_of d2 →
  read_record d1 title data = read_record d2 title data.
Proof. unfold read_record. by intros ->. Qed.

(** X15. The extractor reads no more than the first 2000 characters of
    the captions, 1000 of the description and 800 of the comments: two
    inputs that agree on these give the same prompt and the same
    result. *)
Theorem analyze_reads_budgets_only (w : World)
    (data_dict data_dict' : gmap str str) (title : str) :
  (∀ key n, (key, n) ∈ slot_budgets →
            take n <$> data_dict !! key = take n <$> data_dict' !! key) →
  prompt_of data_dict title = prompt_of data_dict' title
  ∧ analyze_with_gemini w data_dict title
    = analyze_with_gemini w data_dict' title.
Proof.
  intros Hagree.
  destruct (slot_agree data_dict data_dict' k_transcript 2000)
    as [F1 T1]; [lia|apply Hagree; by left|].
  destruct (slot_agree data_dict data_dict' k_description 1000)
    as [F2 T2]; [lia|apply Hagree; by right; left|].
  destruct (slot_agree data_dict data_dict' k_comments 800)
    as [F3 T3]; [lia|apply Hagree; by right; right; left|].
  assert (available_data data_dict = available_data data_dict') as Ha.
  { unfold available_data. by rewrite F1, F2, F3, T1, T2, T3. }
  assert (sources_of data_dict = sources_of data_dict') as Hs.
  { unfold sources_of. by rewrite F1, F2, F3. }
  assert (prompt_of data_dict title = prompt_of data_dict' title) as Hp.
  { unfold prompt_of. by rewrite Ha. }
  split; [done|]. unfold analyze_with_gemini.
  rewrite !analyze_body_unfold, Ha, Hp.
  destruct (decide _); [done|].
  destruct (generate_content w _); [|done].
  destruct (json_loads w _) as [[| | | | |[|first rest]|]|];
    try done; by rewrite (read_record_same_sources _ _ _ _ Hs).
Qed.

Lemma analyze_reads_budgets_only_witness :
  analyze_with_gemini wrapped_world
    {[ k_description := replicate 1500 97 ]} (lit "Kimchi stew")
  = analyze_with_gemini wrapped_world
      {[ k_description := replicate 1000 97 ]} (lit "Kimchi stew").
Proof.
  refine (proj2 (analyze_reads_budgets_only wrapped_world
                   {[ k_description := replicate 1500 97 ]}
                   {[ k_description := replicate 1000 97 ]}
                   (lit "Kimchi stew") _)).
  intros key n Hin.
  repeat (apply elem_of_cons in Hin as [[= -> ->]|Hin]; [by vm_compute|]).
  by apply elem_of_nil in Hin.
Defined.

(** ** Code fences *)

Lemma drop_while_blank p ws s :
  Forall (λ c, p c = true) ws → drop_while p (ws ++ s) = drop_while p s.
Proof.
  induction 1 as [|c ws Hc _ IH]; [done|].
  cbn [app drop_while]. by rewrite Hc.
Qed.

Lemma drop_while_keep p s c :
  head s = Some c → p c = false → drop_while p s = s.
Proof. destruct s; [done|]. intros [= ->] Hc. cbn. by rewrite Hc. Qed.

Lemma lstrip_padded ws s c :
  blank ws → head s = Some c → isspace c = false →
  lstrip_by isspace (ws ++ s) = s.
Proof.
  intros Hws Hs Hc. unfold lstrip_by.
  rewrite drop_while_blank by done. by eapply drop_while_keep.
Qed.

Lemma rstrip_padded ws s c :
  blank ws → last s = Some c → isspace c = false →
  rstrip_by isspace (s ++ ws) = s.
Proof.
  intros Hws Hs Hc. unfold rstrip_by.
  rewrite reverse_app, drop_while_blank by by apply Forall_reverse.
  rewrite (drop_while_keep _ _ c); [apply reverse_involutive| |done].
  by rewrite head_reverse.
Qed.

Lemma strip_suffix_app p s : strip_suffix p (s ++ p) = Some s.
Proof.
  unfold strip_suffix. rewrite reverse_app.
  rewrite (proj2 (strip_prefix_Some _ _ (reverse s)) eq_refl).
  cbn. by rewrite reverse_involutive.
Qed.

Lemma head_app_trimmed (s t : str) c :
  head s = Some c → head (s ++ t) = Some c.
Proof. by destruct s. Qed.

Lemma last_app_fence (s : str) : last (s ++ fence) = Some backtick.
Proof.
  change fence with ([backtick; backtick] ++ [backtick]).
  by rewrite !(assoc_L (++)), last_snoc.
Qed.

(** X16. A JSON body wrapped in a fence is unwrapped exactly: whatever
    blank space surrounds the fence and separates it from the body, the
    text handed to the parser is the body, for every non-empty body that
    neither starts nor ends with whitespace. *)
Theorem fenced_answer_unwrapped (ws0 ws1 ws2 ws3 body : str) :
  blank ws0 → blank ws1 → blank ws2 → blank ws3 →
  trimmed body →
  answer_of (ws0 ++ (fence ++ lit "json" ++ ws1 ++ body ++ ws2 ++ fence)
             ++ ws3)
  = body.
Proof.
  intros H0 H1 H2 H3 [(c1 & Hhead & Hc1) (c2 & Hlast & Hc2)].
  unfold answer_of.
  set (inner := fence ++ lit "json" ++ ws1 ++ body ++ ws2 ++ fence).
  assert (strip (ws0 ++ inner ++ ws3) = inner) as ->.
  { unfold strip.
    rewrite (lstrip_padded ws0 (inner ++ ws3) backtick); [|done..].
    apply (rstrip_padded ws3 inner backtick); [done| |done].
    subst inner. rewrite !(assoc_L (++)). apply last_app_fence. }
  assert (strip_fence_open inner = body ++ ws2 ++ fence) as ->.
  { unfold strip_fence_open. subst inner.
    change (lit "json") with (lit "jso" ++ [110]).
    rewrite (proj2 (strip_prefix_Some (fence ++ lit "jso") _
                      ([110] ++ ws1 ++ body ++ ws2 ++ fence))).
    - cbn [app]. apply (lstrip_padded ws1 _ c1); [done| |done].
      by apply head_app_trimmed.
    - by rewrite <- !(assoc_L (++)). }
  unfold strip_fence_close.
  rewrite (assoc_L (++)), strip_suffix_app.
  by apply (rstrip_padded ws2 body c2).
Qed.

Lemma fenced_answer_unwrapped_witness :
  answer_of (lit "  ```json
{}
```
") = lit "{}".
Proof.
  refine (fenced_answer_unwrapped (lit "  ") [newline] [newline] [newline]
            (lit "{}") _ _ _ _ _);
    try (by repeat constructor).
  split; by eexists.
Defined.

(** ** The prefilter of the matcher *)

Lemma split_head_prefix sep s :
  ∃ w ws, split sep s = w :: ws ∧ w `prefix_of` s.
Proof.
  induction s as [|c s (w & ws & E & Hw)]; cbn [split].
  - by exists [], [].
  - destruct (c =? sep).
    + exists [], (split sep s). split; [done|]. apply prefix_nil.
    + rewrite E. exists (c :: w), ws. split; [done|].
      by apply prefix_cons.
Qed.

Lemma split_piece_substring sep s piece :
  piece ∈ split sep s → substring piece s.
Proof.
  revert piece. induction s as [|c s IH]; intros piece; cbn [split].
  - intros ->%list_elem_of_singleton. by exists [], [].
  - assert (∀ q, substring q s → substring q (c :: s)) as Hext.
    { intros q (pre & post & ->). by exists (c :: pre), post. }
    destruct (c =? sep).
    + intros [->|H]%elem_of_cons; [by exists [], (c :: s)|].
      by apply Hext, IH.
    + destruct (split_head_prefix sep s) as (w & ws & E & [k ->]).
      rewrite E in *.
      intros [->|H]%elem_of_cons; [by exists [], k|].
      apply Hext, IH. by right.
Qed.

Lemma strip_substring s : substring (strip s) s.
Proof.
  unfold strip.
  destruct (lstrip_by_suffix isspace s) as [pre E].
  destruct (rstrip_by_prefix isspace (lstrip_by isspace s)) as [post E'].
  exists pre, post. by rewrite <- E'.
Qed.

Lemma token_substring text tok :
  tok ∈ parse_ingredients text → substring tok text.
Proof.
  intros (piece & Hpiece & -> & _)%parse_ingredients_spec.
  eapply substring_trans; [apply strip_substring|].
  by eapply split_piece_substring.
Qed.

(** X17. Within SQLite's limits the database prefilter loses no match.
    For an input of fewer than 1000 tokens, none of more than 49998
    bytes, a stored recipe whose ingredients hold no U+0000 and whose
    parsed ingredient set shares a token with the parsed user set is on
    the result page, with that token among its matched ingredients: the
    page is a recipe list, not a message, and no exception is raised. *)
Theorem shared_ingredient_listed (order : set_iteration)
    (rows : list Recipe.t) (input : str) (row : Recipe.t) (tok : str) :
  row ∈ rows →
  tok ∈ parse_ingredients input →
  tok ∈ parse_ingredients (Recipe.ingredients row) →
  0 ∉ Recipe.ingredients row →
  (size (parse_ingredients input) < SQLITE_MAX_EXPR_DEPTH)%nat →
  (∀ t, t ∈ parse_ingredients input →
        utf8_length t + 2 ≤ SQLITE_MAX_LIKE_PATTERN_LENGTH) →
  ∃ views,
    recommend_recipe order rows input = Ok (Recipes views input)
    ∧ view (parse_ingredients input) row ∈ views
    ∧ tok ∈ RecipeView.matched (view (parse_ingredients input) row).
Proof.
  intros Hrow Huser Hrecipe Hnul Hsize Hlim.
  set (user := parse_ingredients input) in *.
  assert (input ≠ []) as Hinput.
  { intros ->. subst user.
    apply parse_ingredients_spec in Huser as (piece & Hp & -> & Hne).
    apply list_elem_of_singleton in Hp as ->. by apply Hne. }
  assert (user ≠ ∅) as Hne.
  { intros E. rewrite E in Huser. by apply not_elem_of_empty in Huser. }
  set (selected :=
         filter (λ r, Exists (λ v, like v (Recipe.ingredients r) = true)
                   ((λ ing, [percent] ++ ing ++ [percent])
                      <$> iter order user)) rows).
  exists (sort_desc RecipeView.match_rate (view user <$> selected)).
  assert (row ∈ selected) as Hsel.
  { apply list_elem_of_filter. split; [|done].
    apply exists_like_iff. exists tok. split; [done|].
    apply like_contains_substring. rewrite c_str_free by done.
    by apply token_substring. }
  split_and!.
  - rewrite recommend_recipe_unfold, decide_False by done.
    fold user.
    rewrite fetch_candidates_scan by by try apply pattern_limit_bindable.
    rewrite scan_ok by by apply patterns_within_limit.
    fold selected. rewrite decide_False; [done|].
    intros E. rewrite E in Hsel. by apply elem_of_nil in Hsel.
  - rewrite sort_desc_perm. apply list_elem_of_fmap. by exists row.
  - cbn. by apply elem_of_intersection.
Qed.

Lemma shared_ingredient_listed_witness :
  ∃ views,
    recommend_recipe elements_order [R1; R2] (lit "a, b")
    = Ok (Recipes views (lit "a, b"))
    ∧ view (parse_ingredients (lit "a, b")) R1 ∈ views
    ∧ lit "a" ∈ RecipeView.matched (view (parse_ingredients (lit "a, b")) R1).
Proof.
  apply (shared_ingredient_listed elements_order [R1; R2] (lit "a, b") R1
           (lit "a")).
  - by left.
  - apply parse_ingredients_spec. exists (lit "a").
    split; [by vm_compute; left|]. by split.
  - apply parse_ingredients_spec. exists (lit "a").
    split; [by vm_compute; left|]. by split.
  - vm_compute. by intros ?%list_elem_of_In; simpl in *; intuition.
  - replace (size (parse_ingredients (lit "a, b"))) with 2%nat
      by by vm_compute.
    unfold SQLITE_MAX_EXPR_DEPTH. lia.
  - by apply tokens_within_limit.
Defined.

(** ** Stored ingredient strings and the matcher's tokens *)

Lemma split_head_empty sep s ws :
  split sep s = [] :: ws → s = [] ∨ head s = Some sep.
Proof.
  destruct s as [|c s]; [by left|]. cbn [split].
  destruct (N.eqb_spec c sep) as [->|_]; [by right|].
  by destruct (split sep s).
Qed.

Lemma split_tail_empty sep s w ws :
  split sep s = w :: ws → [] ∈ ws →
  last s = Some sep ∨ substring [sep; sep] s.
Proof.
  revert w ws. induction s as [|c s IH]; intros w ws; cbn [split].
  - intros [= _ <-] H. by apply elem_of_nil in H.
  - assert (∀ w' ws', split sep s = w' :: ws' → [] ∈ ws' →
              last (c :: s) = Some sep ∨ substring [sep; sep] (c :: s))
      as Hrest.
    { intros w' ws' E H. destruct (IH _ _ E H) as [Hl|(pre & post & ->)].
      - left. destruct s; [done|]. by rewrite last_cons, Hl.
      - right. by exists (c :: pre), post. }
    destruct (N.eqb_spec c sep) as [->|_].
    + intros [= <- <-] H.
      destruct (split_head_prefix sep s) as (w' & ws' & E & _).
      rewrite E in H. apply elem_of_cons in H as [<-|H]; [|by eapply Hrest].
      apply split_head_empty in E as [->|E]; [by left|].
      right. destruct s as [|d s]; [done|]. injection E as ->.
      by exists [], s.
    + destruct (split sep s) as [|w' ws'] eqn:E.
      { intros [= _ <-] H. by apply elem_of_nil in H. }
      intros [= _ <-] H. by eapply Hrest.
Qed.

Lemma split_empty_piece sep s :
  [] ∈ split sep s →
  s = [] ∨ head s = Some sep ∨ last s = Some sep ∨ substring [sep; sep] s.
Proof.
  destruct (split_head_prefix sep s) as (w & ws & E & _). rewrite E.
  intros [<-|H]%elem_of_cons.
  - apply split_head_empty in E. tauto.
  - right; right. by eapply split_tail_empty.
Qed.

Lemma join_split sep s : join [sep] (split sep s) = s.
Proof.
  induction s as [|c s IH]; [done|]. cbn [split].
  destruct (split_head_prefix sep s) as (w & ws & E & _).
  rewrite E in *.
  destruct (N.eqb_spec c sep) as [->|_].
  - change (join [sep] ([] :: w :: ws))
      with ([] ++ [sep] ++ join [sep] (w :: ws)).
    by rewrite IH.
  - rewrite <- IH. by destruct ws.
Qed.

Lemma strip_spaceless s : (∀ c, c ∈ s → isspace c = false) → strip s = s.
Proof.
  intros Hs. unfold strip, lstrip_by, rstrip_by.
  assert (∀ t : str, (∀ c, c ∈ t → isspace c = false) →
            drop_while isspace t = t) as Hkeep.
  { intros [|c t] Ht; [done|].
    apply (drop_while_keep _ _ c); [done|]. apply Ht. by left. }
  rewrite (Hkeep s) by done.
  rewrite Hkeep; [apply reverse_involutive|].
  intros c Hc. apply Hs. by apply elem_of_reverse.
Qed.

Lemma parse_clean_pieces (pieces : list str) :
  Forall (λ piece, strip piece = piece ∧ piece ≠ []) pieces →
  strip <$> filter (λ i, strip i ≠ []) pieces = pieces.
Proof.
  induction 1 as [|piece pieces [Hs Hne] _ IH]; [done|].
  rewrite filter_cons_True by by rewrite Hs.
  by rewrite fmap_cons, Hs, IH.
Qed.

(** X18. What the extractor stores, the matcher reads back piece by
    piece. For every non-empty normalized ingredient string, the
    comma-separated pieces are all non-empty and the matcher's token set is
    exactly the set of these pieces, untouched by its trimming; joining
    the pieces with commas gives the stored string back. *)
Theorem normalized_ingredients_parse (ingredients : str) :
  normalize_ingredients ingredients ≠ [] →
  let stored := normalize_ingredients ingredients in
  parse_ingredients stored = list_to_set (split comma stored)
  ∧ ([] ∉ split comma stored)
  ∧ parse_ingredients stored ≠ ∅
  ∧ join [comma] (split comma stored) = stored.
Proof.
  intros Hne stored.
  destruct (normalize_ingredients_is_canonical ingredients)
    as (Hspace & Hpair & Hhead & Hlast).
  fold stored in Hspace, Hpair, Hhead, Hlast.
  assert ([] ∉ split comma stored) as Hpieces.
  { intros H. apply split_empty_piece in H. tauto. }
  assert (parse_ingredients stored = list_to_set (split comma stored)) as Hp.
  { unfold parse_ingredients. rewrite parse_clean_pieces; [done|].
    apply Forall_forall. intros piece Hpiece. split.
    - apply strip_spaceless. intros c Hc. apply Hspace.
      apply split_piece_substring in Hpiece as (pre & post & ->).
      rewrite !elem_of_app. tauto.
    - by intros ->. }
  split_and!; [done..| |apply join_split].
  rewrite Hp.
  destruct (split_head_prefix comma stored) as (w & ws & -> & _).
  intros E. apply (not_elem_of_empty (C:=gset str) w).
  rewrite <- E. apply elem_of_list_to_set. by left.
Qed.

Lemma normalized_ingredients_parse_witness :
  let stored := normalize_ingredients (lit " egg ,, rice flour,") in
  parse_ingredients stored = list_to_set (split comma stored)
  ∧ ([] ∉ split comma stored)
  ∧ parse_ingredients stored ≠ ∅
  ∧ join [comma] (split comma stored) = stored.
Proof.
  apply (normalized_ingredients_parse (lit " egg ,, rice flour,")).
  by vm_compute.
Defined.
